(** * tiny-agent: the tool library and the tool-calling loop

    A shallow embedding of [src/tools.ts] (the tool library) and of the
    dispatcher and orchestration loop of [src/index.ts], with the
    properties stated for them.

    The program runs on Node: the file system, the child process, the
    regular-expression engine, the JSON printer and the completion service
    are not part of the repository.  They are taken as an interface
    ([Host]); every function of the repository is written over that
    interface, statement by statement.  [Stub] is an in-memory instance of
    the interface, on which the definitions are run.

    The interface hands over the text of a file.  What a write followed
    by a read returns for any JavaScript string is settled one level
    down, with the code units of the string and the bytes of the file
    ([Utf8], [Disk], [Encoded]). *)

From Stdlib Require Import String Ascii List ZArith Lia Bool Arith DecimalString.
From Stdlib Require Import Sorted.
Import ListNotations.

Local Open Scope list_scope.
Local Open Scope string_scope.

Set Implicit Arguments.
Set Warnings "-register-all".

(** ** JavaScript strings

    A string is a sequence of code units; [String.string] plays that role,
    one character per code unit.  The operations below are the ones the
    sources use: [indexOf], [slice], [split] with a one-character
    separator, [+] and [join('')]. *)

Module JsString.

(** [s.indexOf(pat)]: the index of the first position at which [pat]
    occurs in [s], compared character by character, or [-1]. *)
Fixpoint indexOf_from (s pat : string) (i : Z) : Z :=
  if prefix pat s then i
  else match s with
       | EmptyString => (-1)%Z
       | String _ s' => indexOf_from s' pat (i + 1)
       end.

Definition indexOf (s pat : string) : Z := indexOf_from s pat 0.

(** An index argument of [slice]: a negative one counts from the end,
    and the result is clamped to [0 .. len]. *)
Definition clamp (len i : Z) : Z :=
  if (i <? 0)%Z then Z.max (len + i) 0 else Z.min i len.

(** [s.slice(start, stop)]; [stop = None] is the call with one argument. *)
Definition slice (s : string) (start : Z) (stop : option Z) : string :=
  let len := Z.of_nat (String.length s) in
  let from := clamp len start in
  let to := match stop with
            | None => len
            | Some e => clamp len e
            end in
  substring (Z.to_nat from) (Z.to_nat (Z.max (to - from) 0)) s.

(** [s.split(sep)] for a separator of one character: never empty, and
    a separator at the end gives a last empty piece. *)
Fixpoint split (sep : ascii) (s : string) : list string :=
  match s with
  | EmptyString => [EmptyString]
  | String c s' =>
      if Ascii.eqb c sep then EmptyString :: split sep s'
      else match split sep s' with
           | piece :: pieces => String c piece :: pieces
           | [] => [String c EmptyString]
           end
  end.

(** [pieces.join('')]. *)
Definition join (pieces : list string) : string :=
  fold_right append EmptyString pieces.

(** [old] occurs in [s] as a substring. *)
Definition occurs (old s : string) : Prop :=
  exists pre post, s = pre ++ old ++ post.

(** [s] is [pre ++ old ++ post] and [old] does not occur earlier in [s]. *)
Definition first_occurrence (old pre post s : string) : Prop :=
  s = pre ++ old ++ post /\
  forall pre' post', s = pre' ++ old ++ post' ->
                     String.length pre <= String.length pre'.

(** The line feed, the separator of [content.split("\n")]. *)
Definition LF : ascii := Ascii.ascii_of_nat 10.

End JsString.

Import JsString.

(** ** Values and outcomes *)

(** What an operation of the host gives back: its value, or the failure it
    rejects with (an [Error] made by Node or by the SDK, with its message). *)
Inductive host_result (A : Type) : Type :=
  | HostOk (a : A)
  | HostFail (message : string).

Arguments HostOk {A} a.
Arguments HostFail {A} message.

(** A thrown value.  [JsError m] is [new Error(m)] thrown by a [throw]
    statement of the repository; [HostError m] is a failure of the host that
    propagates through an [await]. *)
Inductive exn : Type :=
  | JsError (message : string)
  | HostError (message : string).

(** How a call completes: normally with a value, or abruptly. *)
Inductive result (A : Type) : Type :=
  | Ok (a : A)
  | Throw (e : exn).

Arguments Ok {A} a.
Arguments Throw {A} e.

(** [formatError] of index.ts: every thrown value here is an [Error]. *)
Definition formatError (err : exn) : string :=
  match err with
  | JsError message => message
  | HostError message => message
  end.

(** The values that travel through the dispatcher: the argument bag of a
    tool call ([unknown] in the source) and the results of the tools. *)
Inductive jsval : Type :=
  | JUndefined
  | JNull
  | JBool (b : bool)
  | JNumber (n : Z)
  | JString (s : string)
  | JArray (items : list jsval)
  | JObject (fields : list (string * jsval)).

Definition typeof (v : jsval) : string :=
  match v with
  | JUndefined => "undefined"
  | JBool _ => "boolean"
  | JNumber _ => "number"
  | JString _ => "string"
  | JNull | JArray _ | JObject _ => "object"
  end.

Definition truthy (v : jsval) : bool :=
  match v with
  | JUndefined | JNull => false
  | JBool b => b
  | JNumber n => negb (n =? 0)%Z
  | JString s => negb (s =? EmptyString)
  | JArray _ | JObject _ => true
  end.

Fixpoint lookup_field (key : string) (fields : list (string * jsval)) : jsval :=
  match fields with
  | [] => JUndefined
  | (k, v) :: rest => if k =? key then v else lookup_field key rest
  end.

(** [v.key] for one of the keys the dispatcher reads ([filePath], [content],
    [oldText], [newText], [dirPath], [pattern], [command], [options]): an
    own property of a plain object, [undefined] on an array. *)
Definition get (v : jsval) (key : string) : jsval :=
  match v with
  | JObject fields => lookup_field key fields
  | _ => JUndefined
  end.

(** ** Data of tools.ts *)

Record SearchMatch : Type := {
  file : string;
  line : nat;
  text : string
}.

(** A [RegExp] object.  [matcher s i] is the engine's search in [s] from
    index [i] (at index [i] only, for a sticky expression): the index just
    after the match, if there is one.  [lastIndex] is the mutable property
    that [test] reads and writes when the [g] or [y] flag is set. *)
Record RegExp : Type := {
  matcher : string -> nat -> option nat;
  global : bool;
  sticky : bool;
  lastIndex : nat
}.

Definition set_lastIndex (regex : RegExp) (i : nat) : RegExp :=
  {| matcher := matcher regex; global := global regex;
     sticky := sticky regex; lastIndex := i |}.

(** [regex.test(s)]: the answer and the object after the call. *)
Definition test (regex : RegExp) (s : string) : bool * RegExp :=
  if global regex || sticky regex then
    if (String.length s <? lastIndex regex)%nat then (false, set_lastIndex regex 0)
    else match matcher regex s (lastIndex regex) with
         | Some e => (true, set_lastIndex regex e)
         | None => (false, set_lastIndex regex 0)
         end
  else
    match matcher regex s 0 with
    | Some _ => (true, regex)
    | None => (false, regex)
    end.

(** An entry of [fs.readdir(dir, { withFileTypes: true })].  The directories
    under [dir] form a finite tree: an entry that is a directory carries
    what [fs.readdir] gives for [path.join(dir, name)], its own entries or
    the failure. *)
Inductive Dirent : Type :=
  | FileEntry (name : string)
  | DirEntry (name : string) (entries : host_result (list Dirent)).

Definition entry_name (entry : Dirent) : string :=
  match entry with
  | FileEntry name => name
  | DirEntry name _ => name
  end.

Definition isDirectory (entry : Dirent) : bool :=
  match entry with
  | FileEntry _ => false
  | DirEntry _ _ => true
  end.

(** ** Data of index.ts *)

Record ToolUse : Type := {
  id : string;
  name : string;
  input : jsval
}.

(** A content block of a response; [OtherBlock] stands for the block types
    that are neither [text] nor [tool_use]. *)
Inductive ContentBlock : Type :=
  | TextBlock (text : string)
  | ToolUseBlock (toolUse : ToolUse)
  | OtherBlock (type : string).

Record ToolResultBlockParam : Type := {
  tool_use_id : string;
  content : string
}.

Inductive Role : Type := user | assistant.

Inductive MessageContent : Type :=
  | Prompt (prompt : string)
  | Blocks (blocks : list ContentBlock)
  | ToolResults (toolResults : list ToolResultBlockParam).

Record MessageParam : Type := {
  role : Role;
  message_content : MessageContent
}.

Record ToolLogEntry : Type := {
  log_name : string;
  log_input : jsval;
  log_output : string
}.

(** A tool descriptor: its name, its description, and of its
    [input_schema] the properties, all of type [string] but [options],
    and the required ones. *)
Record Tool : Type := {
  tool_name : string;
  description : string;
  properties : list string;
  required : list string
}.

Definition tools : list Tool := [
  {| tool_name := "readFile";
     description := "Read a text file and return its contents.";
     properties := ["filePath"];
     required := ["filePath"] |};
  {| tool_name := "writeFile";
     description := "Write a text file, creating parent directories if needed.";
     properties := ["filePath"; "content"];
     required := ["filePath"; "content"] |};
  {| tool_name := "editFile";
     description := "Replace the first exact match of oldText with newText.";
     properties := ["filePath"; "oldText"; "newText"];
     required := ["filePath"; "oldText"; "newText"] |};
  {| tool_name := "listDir";
     description := "List directory entries with / suffix for directories.";
     properties := ["dirPath"];
     required := [] |};
  {| tool_name := "searchInFiles";
     description := "Search files for a pattern and return matches.";
     properties := ["pattern"; "dirPath"];
     required := ["pattern"] |};
  {| tool_name := "runCommand";
     description := "Run a shell command and return stdout/stderr.";
     properties := ["command"; "options"];
     required := ["command"] |}
].

(** ** The host

    Everything the program calls and does not define.  [World] is the state
    outside the program: the file system, the processes, the completion
    service.  An operation of the host completes: it gives its value or it
    fails.  Reading a file or a directory leaves the world as it is. *)
Class Host (World : Type) : Type := {
  (** [fs.readFile(path, "utf8")] *)
  fs_readFile : string -> World -> host_result string;
  (** [fs.writeFile(path, data, "utf8")] *)
  fs_writeFile : string -> string -> World -> World * host_result unit;
  (** [fs.mkdir(path, { recursive: true })] *)
  fs_mkdir_recursive : string -> World -> World * host_result unit;
  (** [fs.readdir(path, { withFileTypes: true })] *)
  fs_readdir : string -> World -> host_result (list Dirent);
  path_dirname : string -> string;
  path_join : string -> string -> string;
  (** [promisify(exec)(command, options)]: stdout and stderr *)
  execAsync : string -> jsval -> World -> World * host_result (string * string);
  (** the engine behind [new RegExp(pattern, "g")] *)
  RegExp_compile : string -> host_result (string -> nat -> option nat);
  (** [JSON.stringify(value, null, 2)] *)
  JSON_stringify : jsval -> string;
  (** [client.messages.create] with the model, the system prompt and the
      tool descriptors of index.ts, which never change, and the messages *)
  messages_create :
    list MessageParam -> World -> World * host_result (list ContentBlock)
}.

(** What the properties of [writeFile] and [editFile] assume of the file
    system: a file that was written reads back as written.  (Node encodes
    to UTF-8 and back, which is the identity on well-formed text.) *)
Class FileSystemLaws (World : Type) {H : Host World} : Prop := {
  read_after_write :
    forall path data (w w' : World),
      fs_writeFile path data w = (w', HostOk tt) ->
      fs_readFile path w' = HostOk data
}.

Arguments FileSystemLaws World {H}.

(** ** Effects

    An [async] function over a state [S]: it takes the state and gives the
    state it leaves and how it completed.  [await] is sequencing; a rejected
    promise that is awaited throws. *)
Module Eff.

Definition t (S A : Type) : Type := S -> S * result A.

Definition ret {S A : Type} (a : A) : t S A := fun s => (s, Ok a).

Definition throw {S A : Type} (e : exn) : t S A := fun s => (s, Throw e).

Definition bind {S A B : Type} (m : t S A) (k : A -> t S B) : t S B :=
  fun s =>
    match m s with
    | (s', Ok a) => k a s'
    | (s', Throw e) => (s', Throw e)
    end.

(** Awaiting a host operation that changes the state. *)
Definition await {S A : Type} (op : S -> S * host_result A) : t S A :=
  fun s =>
    match op s with
    | (s', HostOk a) => (s', Ok a)
    | (s', HostFail message) => (s', Throw (HostError message))
    end.

(** Awaiting a host operation that only reads the state. *)
Definition await_read {S A : Type} (op : S -> host_result A) : t S A :=
  fun s =>
    match op s with
    | HostOk a => (s, Ok a)
    | HostFail message => (s, Throw (HostError message))
    end.

(** A synchronous call into the host, which returns or throws. *)
Definition call {S A : Type} (r : host_result A) : t S A :=
  await_read (fun _ => r).

End Eff.

Import Eff.

Declare Scope eff_scope.
Delimit Scope eff_scope with eff.

Notation "x <- m ;; k" := (bind m (fun x => k))
  (at level 61, m at next level, right associativity) : eff_scope.
Notation "m ;;; k" := (bind m (fun _ => k))
  (at level 61, right associativity) : eff_scope.

Local Open Scope eff_scope.

(** ** tools.ts *)

Section Tools.

Context {World : Type} {H : Host World}.

Definition readFile (filePath : string) : Eff.t World string :=
  await_read (fs_readFile filePath).

Definition writeFile (filePath content : string) : Eff.t World unit :=
  await (fs_mkdir_recursive (path_dirname filePath)) ;;;
  await (fs_writeFile filePath content).

Definition editFile (filePath oldText newText : string) : Eff.t World unit :=
  content <- await_read (fs_readFile filePath) ;;
  let index := indexOf content oldText in
  if (index =? -1)%Z then throw (JsError "oldText not found")
  else
    let updated :=
      slice content 0 (Some index) ++ newText
      ++ slice content (index + Z.of_nat (String.length oldText)) None in
    await (fs_writeFile filePath updated).

(** [dirPath = "."] is the default of the parameter: [None] is the call
    without the argument. *)
Definition listDir (dirPath : option string) : Eff.t World (list string) :=
  let dirPath := match dirPath with Some d => d | None => "." end in
  entries <- await_read (fs_readdir dirPath) ;;
  ret (map (fun entry =>
              if isDirectory entry then entry_name entry ++ "/"
              else entry_name entry)
           entries).

(** [walk]: [results] is the array that every call pushes to.  The
    recursive call on a directory entry reads the entries it carries. *)
Fixpoint walk_entry (dirPath : string) (entry : Dirent) (results : list string)
  : result (list string) :=
  let fullPath := path_join dirPath (entry_name entry) in
  match entry with
  | DirEntry _ (HostFail message) => Throw (HostError message)
  | DirEntry _ (HostOk entries) =>
      (fix for_entries (entries : list Dirent) (results : list string)
         : result (list string) :=
         match entries with
         | [] => Ok results
         | entry :: rest =>
             match walk_entry fullPath entry results with
             | Ok results' => for_entries rest results'
             | Throw e => Throw e
             end
         end) entries results
  | FileEntry _ => Ok (results ++ [fullPath])%list
  end.

Fixpoint walk_entries (dirPath : string) (entries : list Dirent)
  (results : list string) : result (list string) :=
  match entries with
  | [] => Ok results
  | entry :: rest =>
      match walk_entry dirPath entry results with
      | Ok results' => walk_entries dirPath rest results'
      | Throw e => Throw e
      end
  end.

Definition walk (dirPath : string) (results : list string)
  : Eff.t World (list string) :=
  entries <- await_read (fs_readdir dirPath) ;;
  fun w => (w, walk_entries dirPath entries results).

(** The callback of [lines.forEach]: [index] is the index of [line]. *)
Fixpoint forEach_line (file : string) (lines : list string) (index : nat)
  (regex : RegExp) (matches : list SearchMatch) : RegExp * list SearchMatch :=
  match lines with
  | [] => (regex, matches)
  | line :: rest =>
      let (found, regex) := test regex line in
      let matches :=
        if found
        then (matches ++ [{| file := file; line := index + 1; text := line |}])%list
        else matches in
      forEach_line file rest (S index) (set_lastIndex regex 0) matches
  end.

(** The loop over [files]; a file that cannot be read is skipped. *)
Fixpoint for_files (files : list string) (regex : RegExp)
  (matches : list SearchMatch) (w : World) : RegExp * list SearchMatch :=
  match files with
  | [] => (regex, matches)
  | file :: rest =>
      match fs_readFile file w with
      | HostFail _ => for_files rest regex matches w
      | HostOk content =>
          let lines := split LF content in
          let (regex, matches) := forEach_line file lines 0 regex matches in
          for_files rest regex matches w
      end
  end.

(** [pattern] is a string or a [RegExp] object; [dirPath] defaults to ["."]. *)
Definition searchInFiles (pattern : string + RegExp) (dirPath : option string)
  : Eff.t World (list SearchMatch) :=
  let dirPath := match dirPath with Some d => d | None => "." end in
  regex <- match pattern with
           | inr regex => ret regex
           | inl source =>
               m <- call (RegExp_compile source) ;;
               ret {| matcher := m; global := true; sticky := false;
                      lastIndex := 0 |}
           end ;;
  files <- walk dirPath [] ;;
  fun w => (w, Ok (snd (for_files files regex [] w))).

(** [options = {}] is the default of the parameter. *)
Definition runCommand (command : string) (options : option jsval)
  : Eff.t World (string * string) :=
  let options := match options with Some o => o | None => JObject [] end in
  await (execAsync command options).

End Tools.

(** ** What a search is to return

    In the words of the specification: an entry with the file, the 1-based
    line number and the text of the line, for every line of every file that
    matches the pattern; files that cannot be read are left out.  A line
    matches when the engine finds the pattern in it, searching from its
    first character. *)
Module SearchSpec.

Definition matches_line (m : string -> nat -> option nat) (line : string) : bool :=
  match m line 0 with
  | Some _ => true
  | None => false
  end.

(** The matching lines among [lines], of which the first has index [index]. *)
Fixpoint matching_lines (m : string -> nat -> option nat) (file : string)
  (lines : list string) (index : nat) : list SearchMatch :=
  match lines with
  | [] => []
  | line :: rest =>
      (if matches_line m line
       then [{| file := file; line := index + 1; text := line |}]
       else [])
      ++ matching_lines m file rest (S index)
  end%list.

Definition matches_in_file {World : Type} {H : Host World}
  (m : string -> nat -> option nat) (w : World) (file : string)
  : list SearchMatch :=
  match fs_readFile file w with
  | HostOk content => matching_lines m file (split LF content) 0
  | HostFail _ => []
  end.

Definition expected {World : Type} {H : Host World}
  (m : string -> nat -> option nat) (files : list string) (w : World)
  : list SearchMatch :=
  flat_map (matches_in_file m w) files.

End SearchSpec.

(** *** A pattern with a position of its own

    [searchInFiles] takes a string or a [RegExp] object, and an object
    comes with the flags and the [lastIndex] its owner left it with. *)

Section SearchNotions.

Context {World : Type} {H : Host World}.

Import SearchSpec.




End SearchNotions.

(** ** index.ts: the dispatcher *)

Section Dispatcher.

Context {World : Type} {H : Host World}.

Definition requireString (value : jsval) (name : string) : Eff.t World string :=
  match value with
  | JString s => ret s
  | _ => throw (JsError ("Invalid " ++ name))
  end.

Definition normalizeToolInput (input : jsval) : jsval :=
  if truthy input && (typeof input =? "object") then input else JObject [].

Definition matches_to_js (matches : list SearchMatch) : jsval :=
  JArray (map (fun m => JObject [("file", JString (file m));
                                 ("line", JNumber (Z.of_nat (line m)));
                                 ("text", JString (text m))])
              matches).

Definition runTool (name : string) (input : jsval) : Eff.t World jsval :=
  if name =? "readFile" then
    filePath <- requireString (get input "filePath") "filePath" ;;
    content <- readFile filePath ;;
    ret (JString content)
  else if name =? "writeFile" then
    filePath <- requireString (get input "filePath") "filePath" ;;
    content <- requireString (get input "content") "content" ;;
    writeFile filePath content ;;;
    ret (JString "ok")
  else if name =? "editFile" then
    filePath <- requireString (get input "filePath") "filePath" ;;
    oldText <- requireString (get input "oldText") "oldText" ;;
    newText <- requireString (get input "newText") "newText" ;;
    editFile filePath oldText newText ;;;
    ret (JString "ok")
  else if name =? "listDir" then
    names <- match get input "dirPath" with
             | JString dirPath => listDir (Some dirPath)
             | _ => listDir None
             end ;;
    ret (JArray (map JString names))
  else if name =? "searchInFiles" then
    pattern <- requireString (get input "pattern") "pattern" ;;
    matches <- match get input "dirPath" with
               | JString dirPath => searchInFiles (inl pattern) (Some dirPath)
               | _ => searchInFiles (inl pattern) None
               end ;;
    ret (matches_to_js matches)
  else if name =? "runCommand" then
    command <- requireString (get input "command") "command" ;;
    let options :=
      if (typeof (get input "options") =? "object")
         && negb (match get input "options" with JNull => true | _ => false end)
      then Some (get input "options") else None in
    out <- runCommand command options ;;
    ret (JObject [("stdout", JString (fst out)); ("stderr", JString (snd out))])
  else throw (JsError ("Unknown tool: " ++ name)).

End Dispatcher.

(** ** index.ts: the orchestration loop *)

(** The state a run of [runWithTools] acts on: the world, the entries handed
    to [onToolLog] so far (the callback of index.ts appends each to
    [toolLogs] and prints it), and the number of requests sent to the
    completion service, one per round. *)
Record Run (World : Type) : Type := {
  world : World;
  toolLog : list ToolLogEntry;
  requests : nat
}.

Arguments world {World} r.
Arguments toolLog {World} r.
Arguments requests {World} r.

(** How one turn of the [for] loop ends: with the [return] of the function,
    or at the end of its body, with [messages] as they are then. *)
Inductive Flow : Type :=
  | Return (text : string)
  | NextRound (messages : list MessageParam).

Definition MAX_ROUNDS : nat := 6.

Definition LIMIT_REACHED : string := "Tool loop limit reached".

Section Loop.

Context {World : Type} {H : Host World}.

(** A tool runs in the world of the run. *)
Definition in_world {A : Type} (m : Eff.t World A) : Eff.t (Run World) A :=
  fun r =>
    let (w, res) := m (world r) in
    ({| world := w; toolLog := toolLog r; requests := requests r |}, res).

Definition onToolLog (entry : ToolLogEntry) : Eff.t (Run World) unit :=
  fun r =>
    ({| world := world r; toolLog := (toolLog r ++ [entry])%list;
        requests := requests r |}, Ok tt).

(** [await client.messages.create({ ..., messages })] *)
Definition create (messages : list MessageParam)
  : Eff.t (Run World) (list ContentBlock) :=
  await (fun r =>
           let (w, res) := messages_create messages (world r) in
           ({| world := w; toolLog := toolLog r;
               requests := S (requests r) |}, res)).

(** [content.filter(block => block.type === 'tool_use')] *)
Fixpoint toolUsesOf (content : list ContentBlock) : list ToolUse :=
  match content with
  | [] => []
  | ToolUseBlock toolUse :: rest => toolUse :: toolUsesOf rest
  | _ :: rest => toolUsesOf rest
  end.

(** [content.filter(block => block.type === 'text').map(block => block.text)] *)
Fixpoint textsOf (content : list ContentBlock) : list string :=
  match content with
  | [] => []
  | TextBlock text :: rest => text :: textsOf rest
  | _ :: rest => textsOf rest
  end.

(** [typeof result === 'string' ? result : JSON.stringify(result, null, 2)] *)
Definition toolContent (result : jsval) : string :=
  match result with
  | JString s => s
  | _ => JSON_stringify result
  end.

(** [for (const toolUse of toolUses)], with [toolResults] as it grows. *)
Fixpoint for_toolUses (toolUses : list ToolUse)
  (toolResults : list ToolResultBlockParam)
  : Eff.t (Run World) (list ToolResultBlockParam) :=
  match toolUses with
  | [] => ret toolResults
  | toolUse :: rest =>
      let toolInput := normalizeToolInput (input toolUse) in
      result <- in_world (runTool (name toolUse) toolInput) ;;
      let content := toolContent result in
      onToolLog {| log_name := name toolUse; log_input := toolInput;
                   log_output := content |} ;;;
      for_toolUses rest
        (toolResults ++ [{| tool_use_id := id toolUse; content := content |}])%list
  end.

(** The body of the [for] loop of [runWithTools]. *)
Definition round (messages : list MessageParam) : Eff.t (Run World) Flow :=
  response <- create messages ;;
  let toolUses := toolUsesOf response in
  if (List.length toolUses =? 0)%nat then
    ret (Return (join (textsOf response)))
  else
    toolResults <- for_toolUses toolUses [] ;;
    ret (NextRound
           (messages
            ++ [{| role := assistant; message_content := Blocks response |};
                {| role := user; message_content := ToolResults toolResults |}])%list).

(** [for (let i = 0; i < 6; i += 1)]: [remaining] is [6 - i]. *)
Fixpoint for_rounds (remaining : nat) (messages : list MessageParam)
  : Eff.t (Run World) string :=
  match remaining with
  | 0 => ret LIMIT_REACHED
  | S remaining' =>
      flow <- round messages ;;
      match flow with
      | Return text => ret text
      | NextRound messages' => for_rounds remaining' messages'
      end
  end.

Definition runWithTools (prompt : string) : Eff.t (Run World) string :=
  for_rounds MAX_ROUNDS
    [{| role := user; message_content := Prompt prompt |}].

(** A run that starts in world [w]. *)
Definition start (w : World) : Run World :=
  {| world := w; toolLog := []; requests := 0 |}.

(** What [main] writes once the loop is over. *)
Inductive Printed : Type :=
  | Stdout (text : string)
  | Stderr (text : string).

(** The [try] of [main] around [runWithTools], for one line of input:
    the answer goes to stdout between two line feeds; a failure thrown by
    the loop is caught here, and its message goes to stderr. *)
Definition answer_line (input : string) (w : World) : Run World * Printed :=
  match runWithTools input (start w) with
  | (r, Ok answer) => (r, Stdout (String LF answer ++ String LF EmptyString))
  | (r, Throw err) => (r, Stderr (formatError err ++ String LF EmptyString))
  end.

(** *** Notions the properties of the loop are stated with *)

(** The tool calls [toolUses] ran one after the other, each to its end
    and in the world the one before it left, from world [w] to world
    [w']; [results] and [logs] are the tool result and the log entry of
    each call, in that order. *)
Inductive Sequential
  : list ToolUse -> World -> World ->
    list ToolResultBlockParam -> list ToolLogEntry -> Prop :=
| Sequential_nil (w : World) : Sequential [] w w [] []
| Sequential_cons (toolUse : ToolUse) (rest : list ToolUse) (w w1 w' : World)
    (result : jsval) (results : list ToolResultBlockParam)
    (logs : list ToolLogEntry) :
    runTool (name toolUse) (normalizeToolInput (input toolUse)) w
    = (w1, Ok result) ->
    Sequential rest w1 w' results logs ->
    Sequential (toolUse :: rest) w w'
      ({| tool_use_id := id toolUse; content := toolContent result |} :: results)
      ({| log_name := name toolUse;
          log_input := normalizeToolInput (input toolUse);
          log_output := toolContent result |} :: logs).

(** The completion service answers every request, and every response
    holds at least one tool call. *)
Definition always_requests_tool : Prop :=
  forall (messages : list MessageParam) (w : World),
  exists w' response,
    messages_create messages w = (w', HostOk response) /\
    toolUsesOf response <> [].

End Loop.

Arguments always_requests_tool World {H}.

(** *** The turns a run has gone through *)

Section Turns.

Context {World : Type} {H : Host World}.

(** The state of the run at the end of a turn that began in [r], when
    the world is [w] then and [logs] are the log entries of the turn. *)
Definition after_turn (w : World) (logs : list ToolLogEntry) (r : Run World)
  : Run World :=
  {| world := w; toolLog := (toolLog r ++ logs)%list; requests := S (requests r) |}.

(** [Turns k messages r messages' r']: from the conversation [messages]
    and the state [r], [k] turns of the loop have been gone through, one
    after the other, each with a request answered by a response that holds
    tool calls, all of which ran to their end; [messages'] and [r'] are the
    conversation and the state after the last of them. *)
Inductive Turns
  : nat -> list MessageParam -> Run World -> list MessageParam -> Run World -> Prop :=
| Turns_none (messages : list MessageParam) (r : Run World) :
    Turns 0 messages r messages r
| Turns_next (k : nat) (messages : list MessageParam) (r : Run World)
    (w1 w2 : World) (response : list ContentBlock)
    (results : list ToolResultBlockParam) (logs : list ToolLogEntry)
    (messages' : list MessageParam) (r' : Run World) :
    messages_create messages (world r) = (w1, HostOk response) ->
    toolUsesOf response <> [] ->
    Sequential (toolUsesOf response) w1 w2 results logs ->
    Turns k
      (messages
       ++ [{| role := assistant; message_content := Blocks response |};
           {| role := user; message_content := ToolResults results |}])%list
      (after_turn w2 logs r) messages' r' ->
    Turns (S k) messages r messages' r'.

(** The turn that begins with the conversation [messages] in the state
    [r] ends in the state [r'] with [e] thrown by a tool call: the request
    of the turn is answered by a response whose tool calls are [done],
    then [toolUse], then [rest]; the calls of [done] run to their end one
    after the other, and [toolUse], dispatched in the world they left,
    throws [e]. *)
Definition ToolFails (messages : list MessageParam) (r r' : Run World) (e : exn)
  : Prop :=
  exists (w1 w2 w3 : World) (response : list ContentBlock)
         (done : list ToolUse) (toolUse : ToolUse) (rest : list ToolUse)
         (results : list ToolResultBlockParam) (logs : list ToolLogEntry),
    messages_create messages (world r) = (w1, HostOk response) /\
    toolUsesOf response = (done ++ toolUse :: rest)%list /\
    Sequential done w1 w2 results logs /\
    runTool (name toolUse) (normalizeToolInput (input toolUse)) w2 = (w3, Throw e) /\
    r' = after_turn w3 logs r.

(** The turn that begins with [messages] in the state [r] ends in the
    state [r'] with [e] thrown by the request to the completion service. *)
Definition ServiceFails (messages : list MessageParam) (r r' : Run World) (e : exn)
  : Prop :=
  exists (w1 : World) (message : string),
    messages_create messages (world r) = (w1, HostFail message) /\
    e = HostError message /\
    r' = {| world := w1; toolLog := toolLog r; requests := S (requests r) |}.

End Turns.

(** ** An in-memory host

    A small host to run the program on: a tree of directories and files
    whose root is the working directory, no shell (every command fails), a
    regular-expression engine for expressions without metacharacters, a
    one-line JSON printer, and a completion service that answers as a given
    function of the conversation. *)
Module Stub.

(** A node of the tree; [Locked] is a file that may not be opened. *)
Inductive node : Type :=
  | File (data : string)
  | Locked
  | Dir (children : list (string * node)).

Record World : Type := { root : list (string * node) }.

Fixpoint lookup {A : Type} (key : string) (table : list (string * A)) : option A :=
  match table with
  | [] => None
  | (k, v) :: rest => if k =? key then Some v else lookup key rest
  end.

(** The entry of [key] replaced, or added at the end. *)
Fixpoint update {A : Type} (key : string) (v : A) (table : list (string * A))
  : list (string * A) :=
  match table with
  | [] => [(key, v)]
  | (k, v') :: rest =>
      if k =? key then (k, v) :: rest else (k, v') :: update key v rest
  end.

(** The names a path goes through from the root: the pieces between
    slashes, without the empty ones and ["."]; [".."] goes one up. *)
Fixpoint resolve (pieces : list string) (above : list string) : list string :=
  match pieces with
  | [] => rev above
  | piece :: rest =>
      if (piece =? EmptyString) || (piece =? ".") then resolve rest above
      else if piece =? ".." then resolve rest (tl above)
      else resolve rest (piece :: above)
  end.

Definition components (path : string) : list string :=
  resolve (split "/" path) [].

Fixpoint find (names : list string) (children : list (string * node))
  : option node :=
  match names with
  | [] => Some (Dir children)
  | name :: rest =>
      match lookup name children with
      | Some (Dir sub) => find rest sub
      | Some other => match rest with [] => Some other | _ :: _ => None end
      | None => None
      end
  end.

(** The tree with [data] in the file at [names]: its directory must exist,
    and the file, when it exists, must be one that may be opened. *)
Fixpoint put (names : list string) (data : string)
  (children : list (string * node)) : option (list (string * node)) :=
  match names with
  | [] => None
  | name :: rest =>
      match rest with
      | [] =>
          match lookup name children with
          | Some (Dir _) | Some Locked => None
          | Some (File _) | None => Some (update name (File data) children)
          end
      | _ :: _ =>
          match lookup name children with
          | Some (Dir sub) =>
              match put rest data sub with
              | Some sub' => Some (update name (Dir sub') children)
              | None => None
              end
          | _ => None
          end
      end
  end.

(** The tree with a directory at [names], and at every name on the way. *)
Fixpoint make (names : list string) (children : list (string * node))
  : option (list (string * node)) :=
  match names with
  | [] => Some children
  | name :: rest =>
      match lookup name children with
      | Some (Dir sub) =>
          match make rest sub with
          | Some sub' => Some (update name (Dir sub') children)
          | None => None
          end
      | Some _ => None
      | None =>
          match make rest [] with
          | Some sub' => Some (update name (Dir sub') children)
          | None => None
          end
      end
  end.

(** The entry of a node, a directory with the entries under it. *)
Fixpoint dirent (name : string) (n : node) : Dirent :=
  match n with
  | Dir children =>
      DirEntry name
        (HostOk ((fix each (children : list (string * node)) : list Dirent :=
                    match children with
                    | [] => []
                    | (k, child) :: rest => dirent k child :: each rest
                    end) children))
  | _ => FileEntry name
  end.

Definition readFile (path : string) (w : World) : host_result string :=
  match find (components path) (root w) with
  | Some (File data) => HostOk data
  | Some Locked => HostFail ("EACCES: permission denied, open " ++ path)
  | Some (Dir _) => HostFail "EISDIR: illegal operation on a directory, read"
  | None => HostFail ("ENOENT: no such file or directory, open " ++ path)
  end.

Definition writeFile (path data : string) (w : World) : World * host_result unit :=
  match put (components path) data (root w) with
  | Some children => ({| root := children |}, HostOk tt)
  | None => (w, HostFail ("ENOENT: no such file or directory, open " ++ path))
  end.

Definition mkdir (path : string) (w : World) : World * host_result unit :=
  match make (components path) (root w) with
  | Some children => ({| root := children |}, HostOk tt)
  | None => (w, HostFail ("EEXIST: file already exists, mkdir " ++ path))
  end.

Definition readdir (path : string) (w : World) : host_result (list Dirent) :=
  match find (components path) (root w) with
  | Some (Dir children) => HostOk (map (fun entry => dirent (fst entry) (snd entry))
                                       children)
  | Some _ => HostFail ("ENOTDIR: not a directory, scandir " ++ path)
  | None => HostFail ("ENOENT: no such file or directory, scandir " ++ path)
  end.

(** The part of a path before its last slash, if it has one. *)
Fixpoint before_last_slash (path : string) : option string :=
  match path with
  | EmptyString => None
  | String c rest =>
      match before_last_slash rest with
      | Some d => Some (String c d)
      | None => if Ascii.eqb c "/" then Some EmptyString else None
      end
  end.

Definition dirname (path : string) : string :=
  match before_last_slash path with
  | Some EmptyString => "/"
  | Some d => d
  | None => "."
  end.

(** [path.join] of a directory and a name: the names of the path, joined
    by slashes. *)
Definition join (dir name : string) : string :=
  match components (dir ++ "/" ++ name) with
  | [] => "."
  | names => String.concat "/" names
  end.

Definition exec (command : string) (options : jsval) (w : World)
  : World * host_result (string * string) :=
  (w, HostFail ("Command failed: " ++ command)).

Definition is_meta (c : ascii) : bool :=
  existsb (Ascii.eqb c)
    ["\"; "^"; "$"; "."; "|"; "?"; "*"; "+"; "("; ")"; "["; "]"; "{"; "}"]%char.

Fixpoint has_meta (source : string) : bool :=
  match source with
  | EmptyString => false
  | String c rest => is_meta c || has_meta rest
  end.

(** The search of an expression that is plain text: its first occurrence
    at or after [i]. *)
Definition literal_search (source s : string) (i : nat) : option nat :=
  let k := indexOf (slice s (Z.of_nat i) None) source in
  if (k =? -1)%Z then None
  else Some (i + Z.to_nat k + String.length source).

Definition compile (source : string) : host_result (string -> nat -> option nat) :=
  if has_meta source
  then HostFail ("Invalid regular expression: " ++ source)
  else HostOk (literal_search source).

Definition quote : string := String (Ascii.ascii_of_nat 34) EmptyString.

Fixpoint stringify (v : jsval) : string :=
  match v with
  | JUndefined => "undefined"
  | JNull => "null"
  | JBool b => if b then "true" else "false"
  | JNumber n => NilZero.string_of_int (Z.to_int n)
  | JString s => quote ++ s ++ quote
  | JArray items =>
      "[" ++ (fix each (items : list jsval) : string :=
                match items with
                | [] => EmptyString
                | [item] => stringify item
                | item :: rest => stringify item ++ "," ++ each rest
                end) items ++ "]"
  | JObject fields =>
      "{" ++ (fix each (fields : list (string * jsval)) : string :=
                match fields with
                | [] => EmptyString
                | [(k, item)] => quote ++ k ++ quote ++ ":" ++ stringify item
                | (k, item) :: rest =>
                    quote ++ k ++ quote ++ ":" ++ stringify item ++ "," ++ each rest
                end) fields ++ "}"
  end.

Definition Service : Type := list MessageParam -> host_result (list ContentBlock).

Definition host (service : Service) : Host World := {|
  fs_readFile := readFile;
  fs_writeFile := writeFile;
  fs_mkdir_recursive := mkdir;
  fs_readdir := readdir;
  path_dirname := dirname;
  path_join := join;
  execAsync := exec;
  RegExp_compile := compile;
  JSON_stringify := stringify;
  messages_create := fun messages w => (w, service messages)
|}.

(** *** Worlds and services used below *)

(** Lines joined by line feeds. *)
Definition text_of_lines (lines : list string) : string :=
  String.concat (String LF EmptyString) lines.

(** A directory with two files, one of them locked, and a sub-directory
    with one file. *)
Definition project : World := {|
  root := [("notes.txt", File (text_of_lines ["foo bar"; "baz"; "foofoo"]));
           ("locked.bin", Locked);
           ("docs", Dir [("readme.md", File (text_of_lines ["nothing"; "to see"]))])]
|}.

Definition call (id name : string) (fields : list (string * jsval)) : ContentBlock :=
  ToolUseBlock {| id := id; name := name; input := JObject fields |}.

(** Answers every request with some text and a call of [listDir]. *)
Definition always_lists : Service :=
  fun _ => HostOk [TextBlock "Looking around."; call "toolu_1" "listDir" []].

(** Asks for [readFile] and leaves [filePath] out. *)
Definition reads_nothing : Service :=
  fun _ => HostOk [call "toolu_1" "readFile" []].

(** Asks for a tool that does not exist. *)
Definition calls_unknown : Service :=
  fun _ => HostOk [call "toolu_1" "deleteFile" [("filePath", JString "notes.txt")]].

(** Answers with text only. *)
Definition just_answers : Service :=
  fun _ => HostOk [TextBlock "Hello, "; OtherBlock "thinking"; TextBlock "world."].

(** Writes a file and reads it back in the first round, then answers. *)
Definition writes_then_answers : Service :=
  fun messages =>
    if (List.length messages =? 1)%nat then
      HostOk [TextBlock "On it.";
              call "toolu_1" "writeFile"
                [("filePath", JString "out/a.txt"); ("content", JString "hello")];
              call "toolu_2" "readFile" [("filePath", JString "out/a.txt")]]
    else HostOk [TextBlock "Done."].

(** Lists the directory, then asks for an edit whose [oldText] is not in
    the file, then for a read. *)
Definition lists_then_edits : Service :=
  fun _ =>
    HostOk [call "toolu_1" "listDir" [];
            call "toolu_2" "editFile"
              [("filePath", JString "notes.txt"); ("oldText", JString "qux");
               ("newText", JString "quux")];
            call "toolu_3" "readFile" [("filePath", JString "notes.txt")]].

(** [project] with [content] in ["notes.txt"]. *)
Definition project_with_notes (content : string) : World := {|
  root := [("notes.txt", File content);
           ("locked.bin", Locked);
           ("docs", Dir [("readme.md", File (text_of_lines ["nothing"; "to see"]))])]
|}.


(** [project] with the directory ["out"] and ["hello"] in ["out/a.txt"]. *)
Definition project_with_output : World := {|
  root := [("notes.txt", File (text_of_lines ["foo bar"; "baz"; "foofoo"]));
           ("locked.bin", Locked);
           ("docs", Dir [("readme.md", File (text_of_lines ["nothing"; "to see"]))]);
           ("out", Dir [("a.txt", File "hello")])]
|}.

(** *** More hosts, worlds and services *)

(** The host whose [fs.readdir] gives [entries] for every path, and is the
    in-memory host otherwise: for listings the tree cannot hold. *)
Definition host_listing (entries : list Dirent) (service : Service) : Host World := {|
  fs_readFile := readFile;
  fs_writeFile := writeFile;
  fs_mkdir_recursive := mkdir;
  fs_readdir := fun _ _ => HostOk entries;
  path_dirname := dirname;
  path_join := join;
  execAsync := exec;
  RegExp_compile := compile;
  JSON_stringify := stringify;
  messages_create := fun messages w => (w, service messages)
|}.

(** A listing with a directory that may not be listed. *)
Definition listing_with_private : list Dirent :=
  [FileEntry "notes.txt";
   DirEntry "private" (HostFail "EACCES: permission denied, scandir private");
   FileEntry "locked.bin"].

(** The completion service is down. *)
Definition unavailable : Service :=
  fun _ => HostFail "503 Service Unavailable".

End Stub.

(** ** What a walk is to list

    The files under a directory, in the order [walk] visits them: the
    entries in the order [fs.readdir] gives them, the files of a directory
    at the place of its entry; and the first directory on the way that
    cannot be listed. *)
Module WalkSpec.

Section Files.

Context {World : Type} {H : Host World}.

Fixpoint files_of_entry (dirPath : string) (entry : Dirent) : list string :=
  match entry with
  | FileEntry name => [path_join dirPath name]
  | DirEntry name (HostOk entries) =>
      (fix each (entries : list Dirent) : list string :=
         match entries with
         | [] => []
         | entry :: rest =>
             (files_of_entry (path_join dirPath name) entry ++ each rest)%list
         end) entries
  | DirEntry _ (HostFail _) => []
  end.

Definition files_under (dirPath : string) (entries : list Dirent) : list string :=
  flat_map (files_of_entry dirPath) entries.

Fixpoint failure_of_entry (entry : Dirent) : option string :=
  match entry with
  | FileEntry _ => None
  | DirEntry _ (HostFail message) => Some message
  | DirEntry _ (HostOk entries) =>
      (fix each (entries : list Dirent) : option string :=
         match entries with
         | [] => None
         | entry :: rest =>
             match failure_of_entry entry with
             | Some message => Some message
             | None => each rest
             end
         end) entries
  end.

Fixpoint first_failure (entries : list Dirent) : option string :=
  match entries with
  | [] => None
  | entry :: rest =>
      match failure_of_entry entry with
      | Some message => Some message
      | None => first_failure rest
      end
  end.
End Files.
End WalkSpec.


(** ** What a listing says

    How a name of the listing of [listDir] is read back: a name that ends
    with a slash is a directory of the name before the slash, any other
    name is a file. *)
Module ListingSpec.

Fixpoint ends_with_slash (s : string) : bool :=
  match s with
  | EmptyString => false
  | String c rest =>
      match rest with
      | EmptyString => Ascii.eqb c "/"
      | String _ _ => ends_with_slash rest
      end
  end.

Fixpoint without_last (s : string) : string :=
  match s with
  | EmptyString => EmptyString
  | String c rest =>
      match rest with
      | EmptyString => EmptyString
      | String _ _ => String c (without_last rest)
      end
  end.

(** The name and whether it is a directory. *)
Definition read_listed (listed : string) : string * bool :=
  if ends_with_slash listed then (without_last listed, true) else (listed, false).

End ListingSpec.

(** The keys of the argument bag that [runTool] reads. *)
Definition tool_keys : list string :=
  ["filePath"; "content"; "oldText"; "newText"; "dirPath"; "pattern";
   "command"; "options"].

(** The required arguments that the descriptor of the tool [name] declares;
    none for a name that has no descriptor. *)
Definition required_of (name : string) : list string :=
  match find (fun tool => tool_name tool =? name) tools with
  | Some tool => required tool
  | None => []
  end.

(** ** Strings as JavaScript has them, and their bytes in a file

    A JavaScript string is a sequence of 16-bit code units, and any
    sequence is a string: a surrogate need not have its partner.  A file
    holds bytes.  With the encoding ["utf8"], [fs.writeFile] writes
    [Buffer.from(data, "utf8")] and [fs.readFile] returns
    [buffer.toString("utf8")] of the bytes of the file.  The definitions
    of tools.ts above take the text of a file as the file system hands it
    over; what a write followed by a read returns for any string is
    settled here, with the code units and the bytes written out. *)
Module Utf8.

Local Open Scope Z_scope.

(** The code units of a string, each from 0 to 0xFFFF. *)
Definition js_string : Type := list Z.

Definition is_unit (u : Z) : Prop := 0 <= u <= 0xFFFF.

Definition is_high_surrogate (u : Z) : bool := (0xD800 <=? u) && (u <=? 0xDBFF).

Definition is_low_surrogate (u : Z) : bool := (0xDC00 <=? u) && (u <=? 0xDFFF).

(** U+FFFD, the replacement character *)
Definition REPLACEMENT : Z := 0xFFFD.

(** The code point that a high and a low surrogate stand for. *)
Definition code_point (high low : Z) : Z :=
  0x10000 + (high - 0xD800) * 0x400 + (low - 0xDC00).

(** The bytes of a code point in UTF-8. *)
Definition bytes_of (cp : Z) : list Z :=
  if cp <=? 0x7F then [cp]
  else if cp <=? 0x7FF then [0xC0 + cp / 0x40; 0x80 + cp mod 0x40]
  else if cp <=? 0xFFFF then
    [0xE0 + cp / 0x1000; 0x80 + (cp / 0x40) mod 0x40; 0x80 + cp mod 0x40]
  else
    [0xF0 + cp / 0x40000; 0x80 + (cp / 0x1000) mod 0x40;
     0x80 + (cp / 0x40) mod 0x40; 0x80 + cp mod 0x40].

(** [Buffer.from(s, "utf8")]: a surrogate pair is one code point; a
    surrogate without its partner is written as U+FFFD. *)
Fixpoint encode (s : js_string) : list Z :=
  match s with
  | [] => []
  | u :: rest =>
      if is_high_surrogate u then
        match rest with
        | low :: rest' =>
            if is_low_surrogate low
            then bytes_of (code_point u low) ++ encode rest'
            else bytes_of REPLACEMENT ++ encode rest
        | [] => bytes_of REPLACEMENT
        end
      else if is_low_surrogate u then bytes_of REPLACEMENT ++ encode rest
      else bytes_of u ++ encode rest
  end%list.

(** The state of the decoder between two bytes: the bits of the code
    point read so far, the number of bytes it still needs, and the range
    the next byte has to be in. *)
Record Decoder : Type := {
  acc : Z;
  remaining : nat;
  lower : Z;
  upper : Z
}.

Definition initial : Decoder :=
  {| acc := 0; remaining := 0; lower := 0x80; upper := 0xBF |}.

(** A byte where a code point begins.  The ranges of the byte after
    [0xE0], [0xED], [0xF0] and [0xF4] keep out the encodings that are too
    long, the surrogates and what is above U+10FFFF. *)
Definition first_byte (b : Z) : list Z * Decoder :=
  if b <=? 0x7F then ([b], initial)
  else if (0xC2 <=? b) && (b <=? 0xDF) then
    ([], {| acc := b - 0xC0; remaining := 1; lower := 0x80; upper := 0xBF |})
  else if (0xE0 <=? b) && (b <=? 0xEF) then
    ([], {| acc := b - 0xE0; remaining := 2;
            lower := if b =? 0xE0 then 0xA0 else 0x80;
            upper := if b =? 0xED then 0x9F else 0xBF |})
  else if (0xF0 <=? b) && (b <=? 0xF4) then
    ([], {| acc := b - 0xF0; remaining := 3;
            lower := if b =? 0xF0 then 0x90 else 0x80;
            upper := if b =? 0xF4 then 0x8F else 0xBF |})
  else ([REPLACEMENT], initial).

(** One byte more: the code points that are complete with it, and the
    state after it.  A byte that cannot go on the sequence ends it with
    U+FFFD and is read again as a first byte. *)
Definition next_byte (d : Decoder) (b : Z) : list Z * Decoder :=
  match remaining d with
  | O => first_byte b
  | S n =>
      if (b <? lower d) || (upper d <? b) then
        let (out, d') := first_byte b in (REPLACEMENT :: out, d')
      else
        let acc' := acc d * 0x40 + (b - 0x80) in
        match n with
        | O => ([acc'], initial)
        | S _ => ([], {| acc := acc'; remaining := n; lower := 0x80; upper := 0xBF |})
        end
  end.

(** The code points of a sequence of bytes; a sequence that ends in the
    middle of a code point ends with U+FFFD. *)
Fixpoint code_points (d : Decoder) (bytes : list Z) : list Z :=
  match bytes with
  | [] => match remaining d with O => [] | S _ => [REPLACEMENT] end
  | b :: rest => let (out, d') := next_byte d b in (out ++ code_points d' rest)%list
  end.

(** The code units of a code point: itself, or a surrogate pair. *)
Definition units_of (cp : Z) : js_string :=
  if cp <=? 0xFFFF then [cp]
  else [0xD800 + (cp - 0x10000) / 0x400; 0xDC00 + (cp - 0x10000) mod 0x400].

(** [buffer.toString("utf8")]; a byte order mark is kept. *)
Definition decode (bytes : list Z) : js_string :=
  flat_map units_of (code_points initial bytes).

(** [s.isWellFormed()]: every surrogate of [s] has its partner. *)
Fixpoint isWellFormed (s : js_string) : bool :=
  match s with
  | [] => true
  | u :: rest =>
      if is_high_surrogate u then
        match rest with
        | low :: rest' => is_low_surrogate low && isWellFormed rest'
        | [] => false
        end
      else if is_low_surrogate u then false
      else isWellFormed rest
  end.

(** [s.toWellFormed()]: [s] with U+FFFD for each surrogate that has no
    partner. *)
Fixpoint toWellFormed (s : js_string) : js_string :=
  match s with
  | [] => []
  | u :: rest =>
      if is_high_surrogate u then
        match rest with
        | low :: rest' =>
            if is_low_surrogate low
            then u :: low :: toWellFormed rest'
            else REPLACEMENT :: toWellFormed rest
        | [] => [REPLACEMENT]
        end
      else if is_low_surrogate u then REPLACEMENT :: toWellFormed rest
      else u :: toWellFormed rest
  end.

End Utf8.

(** The file system under the encoding: a file holds bytes. *)
Class Disk (World : Type) : Type := {
  (** [fs.readFile(path)]: the bytes of the file *)
  disk_readFile : Utf8.js_string -> World -> host_result (list Z);
  (** [fs.writeFile(path, buffer)] *)
  disk_writeFile : Utf8.js_string -> list Z -> World -> World * host_result unit;
  (** [fs.mkdir(path, { recursive: true })] *)
  disk_mkdir_recursive : Utf8.js_string -> World -> World * host_result unit;
  disk_dirname : Utf8.js_string -> Utf8.js_string
}.

(** A file holds the bytes that were written to it. *)
Class DiskLaws (World : Type) {D : Disk World} : Prop := {
  bytes_after_write :
    forall path bytes (w w' : World),
      disk_writeFile path bytes w = (w', HostOk tt) ->
      disk_readFile path w' = HostOk bytes
}.

Arguments DiskLaws World {D}.

(** [readFile] and [writeFile] of tools.ts on such strings, with what the
    argument ["utf8"] stands for. *)
Module Encoded.

Section Tools.

Context {World : Type} {D : Disk World}.

(** [fs.readFile(path, "utf8")] *)
Definition fs_readFile_utf8 (path : Utf8.js_string) (w : World)
  : host_result Utf8.js_string :=
  match disk_readFile path w with
  | HostOk bytes => HostOk (Utf8.decode bytes)
  | HostFail message => HostFail message
  end.

(** [fs.writeFile(path, data, "utf8")] *)
Definition fs_writeFile_utf8 (path data : Utf8.js_string) (w : World)
  : World * host_result unit :=
  disk_writeFile path (Utf8.encode data) w.

Definition readFile (filePath : Utf8.js_string) : Eff.t World Utf8.js_string :=
  await_read (fs_readFile_utf8 filePath).

Definition writeFile (filePath content : Utf8.js_string) : Eff.t World unit :=
  await (disk_mkdir_recursive (disk_dirname filePath)) ;;;
  await (fs_writeFile_utf8 filePath content).

End Tools.

End Encoded.

(** A disk in memory: the files by their paths, the last written first;
    every directory is there. *)
Module MemDisk.

Local Open Scope Z_scope.

Definition World : Type := list (Utf8.js_string * list Z).

Fixpoint same (a b : Utf8.js_string) : bool :=
  match a, b with
  | [], [] => true
  | x :: a', y :: b' => (x =? y) && same a' b'
  | _, _ => false
  end.

Fixpoint find (path : Utf8.js_string) (w : World) : option (list Z) :=
  match w with
  | [] => None
  | (p, bytes) :: rest => if same p path then Some bytes else find path rest
  end.

(** The path up to its last slash. *)
Fixpoint dirname (path : Utf8.js_string) : Utf8.js_string :=
  match path with
  | [] => []
  | u :: rest => if existsb (Z.eqb 0x2F) rest then u :: dirname rest else []
  end.

Definition disk : Disk World := {|
  disk_readFile path w :=
    match find path w with
    | Some bytes => HostOk bytes
    | None => HostFail "ENOENT: no such file or directory"
    end;
  disk_writeFile path bytes w := ((path, bytes) :: w, HostOk tt);
  disk_mkdir_recursive _ w := (w, HostOk tt);
  disk_dirname := dirname
|}.

(** The code units of a text in ASCII. *)
Fixpoint units (s : string) : Utf8.js_string :=
  match s with
  | EmptyString => []
  | String c rest => Z.of_nat (nat_of_ascii c) :: units rest
  end.

(** The string ['a\ud800b']: a high surrogate without its partner. *)
Definition with_lone_surrogate : Utf8.js_string := [0x61; 0xD800; 0x62].

(** The string ['a\ufffdb']. *)
Definition with_replacement : Utf8.js_string := [0x61; 0xFFFD; 0x62].

(** A well-formed string with code points of one, two, three and four
    bytes: [h], [U+00E9], [U+20AC] and [U+1F600], the last as the pair
    [0xD83D], [0xDE00]. *)
Definition well_formed_text : Utf8.js_string :=
  [0x68; 0xE9; 0x20AC; 0xD83D; 0xDE00].

End MemDisk.

(** * Properties *)

(** ** Strings *)

Example indexOf_abcabc : indexOf "abcabc" "bc" = 1%Z.
Proof. reflexivity. Qed.

Example indexOf_absent : indexOf "abcabc" "cb" = (-1)%Z.
Proof. reflexivity. Qed.

Example indexOf_empty_pattern : indexOf "abc" EmptyString = 0%Z.
Proof. reflexivity. Qed.

Example slice_negative : slice "abcdef" (-2) None = "ef".
Proof. reflexivity. Qed.

Example slice_crossed : slice "abcdef" 4 (Some 2%Z) = EmptyString.
Proof. reflexivity. Qed.

Example split_trailing : split "," "a,b," = ["a"; "b"; EmptyString].
Proof. reflexivity. Qed.

Lemma append_empty_r (s : string) : s ++ EmptyString = s.
Proof. induction s; simpl; congruence. Qed.

Lemma append_assoc (a b c : string) : (a ++ b) ++ c = a ++ b ++ c.
Proof. induction a; simpl; congruence. Qed.

Lemma length_append (a b : string) :
  String.length (a ++ b) = String.length a + String.length b.
Proof. induction a; simpl; congruence. Qed.

Lemma prefix_empty (s : string) : prefix EmptyString s = true.
Proof. destruct s; reflexivity. Qed.

Lemma prefix_append (p s : string) :
  prefix p s = true <-> exists t, s = p ++ t.
Proof.
  revert s; induction p as [|c p IH]; intros s.
  - rewrite prefix_empty. split; [exists s; reflexivity | reflexivity].
  - destruct s as [|d s]; simpl.
    + split; [discriminate | intros [t Ht]; discriminate].
    + destruct (ascii_dec c d) as [->|Hcd].
      * rewrite IH. split; intros [t Ht]; exists t; [now rewrite Ht | now inversion Ht].
      * split; [discriminate | intros [t Ht]; inversion Ht; congruence].
Qed.

Lemma substring_prefix (a b : string) : substring 0 (String.length a) (a ++ b) = a.
Proof.
  induction a as [|c a IH]; simpl.
  - destruct b; reflexivity.
  - now rewrite IH.
Qed.

Lemma substring_all (s : string) : substring 0 (String.length s) s = s.
Proof. rewrite <- (append_empty_r s) at 2. apply substring_prefix. Qed.

Lemma substring_suffix (a b : string) :
  substring (String.length a) (String.length b) (a ++ b) = b.
Proof.
  induction a as [|c a IH]; simpl.
  - apply substring_all.
  - exact IH.
Qed.

(** [split] cuts at every separator and nowhere else: the pieces joined
    by the separator are the string, and no piece holds a separator. *)
Lemma split_not_empty (sep : ascii) (s : string) : split sep s <> [].
Proof.
  destruct s as [|c s]; simpl; [discriminate|].
  destruct (Ascii.eqb c sep); [discriminate|].
  destruct (split sep s); discriminate.
Qed.

Lemma concat_split (sep : ascii) (s : string) :
  String.concat (String sep EmptyString) (split sep s) = s.
Proof.
  induction s as [|c s IH]; simpl; [reflexivity|].
  pose proof (split_not_empty sep s) as Hne.
  destruct (Ascii.eqb_spec c sep) as [->|Hc];
    destruct (split sep s) as [|piece pieces]; try contradiction.
  - simpl. simpl in IH. now rewrite IH.
  - simpl. simpl in IH. destruct pieces; simpl in *; now rewrite IH.
Qed.

Lemma split_pieces (sep : ascii) (s piece : string) :
  In piece (split sep s) -> ~ occurs (String sep EmptyString) piece.
Proof.
  revert piece. induction s as [|c s IH]; intros piece; simpl.
  - intros [<-|[]] [pre [post Hs]]. destruct pre; discriminate.
  - destruct (Ascii.eqb_spec c sep) as [->|Hc].
    + intros [<-|Hin]; [|now apply IH].
      intros [pre [post Hs]]. destruct pre; discriminate.
    + pose proof (split_not_empty sep s) as Hne.
      destruct (split sep s) as [|piece0 pieces]; [contradiction|].
      intros [<-|Hin]; [|apply IH; now right].
      intros [pre [post Hs]]. destruct pre as [|d pre]; simpl in Hs.
      * inversion Hs; congruence.
      * inversion Hs; subst. eapply IH; [left; reflexivity|]. now exists pre, post.
Qed.

(** [content.slice(0, index)] is what comes before [index]. *)
Lemma slice_before (pre rest : string) :
  slice (pre ++ rest) 0 (Some (Z.of_nat (String.length pre))) = pre.
Proof.
  unfold slice, clamp. rewrite length_append.
  destruct (Z.ltb_spec 0 0) as [?|_]; [lia|].
  destruct (Z.ltb_spec (Z.of_nat (String.length pre)) 0) as [?|_]; [lia|].
  replace (Z.to_nat (Z.min 0 _)) with 0 by lia.
  match goal with |- substring 0 ?n _ = _ =>
    replace n with (String.length pre) by lia end.
  apply substring_prefix.
Qed.

(** [content.slice(index + oldText.length)] is what comes after the match. *)
Lemma slice_after (pre old post : string) :
  slice (pre ++ old ++ post)
    (Z.of_nat (String.length pre) + Z.of_nat (String.length old)) None = post.
Proof.
  unfold slice, clamp. rewrite <- append_assoc, length_append, length_append.
  match goal with |- context [(?x <? 0)%Z] =>
    destruct (Z.ltb_spec x 0) as [?|_]; [lia|] end.
  match goal with |- substring ?n ?m _ = _ =>
    replace n with (String.length (pre ++ old)) by (rewrite length_append; lia);
    replace m with (String.length post) by lia end.
  apply substring_suffix.
Qed.

(** [indexOf] finds the first occurrence, or there is none. *)
Lemma indexOf_from_spec (pat s : string) (i : Z) :
  (indexOf_from s pat i = (-1)%Z /\ ~ occurs pat s) \/
  (exists pre post,
      first_occurrence pat pre post s /\
      indexOf_from s pat i = (i + Z.of_nat (String.length pre))%Z).
Proof.
  revert i; induction s as [|c s IH]; intros i; cbn [indexOf_from].
  - destruct (prefix pat EmptyString) eqn:Hp.
    + right. apply prefix_append in Hp as [t Ht].
      exists EmptyString, t. repeat split; simpl; [exact Ht | lia | lia].
    + left. split; [reflexivity|]. intros [pre [post Hs]].
      destruct pre; [|discriminate]. simpl in Hs.
      assert (prefix pat EmptyString = true) by (apply prefix_append; eauto).
      congruence.
  - destruct (prefix pat (String c s)) eqn:Hp.
    + right. apply prefix_append in Hp as [t Ht].
      exists EmptyString, t. repeat split; simpl; [exact Ht | lia | lia].
    + assert (Hno : forall pre post, String c s = pre ++ pat ++ post ->
                      exists pre', pre = String c pre' /\ s = pre' ++ pat ++ post).
      { intros pre post Hs. destruct pre as [|d pre]; simpl in Hs.
        - assert (prefix pat (String c s) = true) by (apply prefix_append; eauto).
          congruence.
        - inversion Hs; subst. eauto. }
      destruct (IH (i + 1)%Z) as [[Hi Hnone]|[pre [post [[Hs Hmin] Hi]]]].
      * left. split; [exact Hi|]. intros [pre [post Hs]].
        destruct (Hno _ _ Hs) as [pre' [_ Hs']]. apply Hnone. now exists pre', post.
      * right. exists (String c pre), post. repeat split.
        -- simpl. now rewrite Hs.
        -- intros pre' post' Hs'. destruct (Hno _ _ Hs') as [q [-> Hq]].
           simpl. apply le_n_S. eapply Hmin; eauto.
        -- rewrite Hi. simpl String.length. lia.
Qed.

Lemma indexOf_absent_iff (pat s : string) :
  indexOf s pat = (-1)%Z <-> ~ occurs pat s.
Proof.
  unfold indexOf.
  destruct (indexOf_from_spec pat s 0) as [[Hi Hno]|[pre [post [[Hs _] Hi]]]].
  - tauto.
  - split; [lia|]. intros Hno. exfalso. apply Hno. now exists pre, post.
Qed.

Lemma indexOf_first (pat pre post s : string) :
  first_occurrence pat pre post s ->
  indexOf s pat = Z.of_nat (String.length pre).
Proof.
  intros [Hs Hmin]. unfold indexOf.
  destruct (indexOf_from_spec pat s 0) as [[_ Hno]|[pre' [post' [[Hs' Hmin'] Hi]]]].
  - exfalso. apply Hno. now exists pre, post.
  - rewrite Hi. specialize (Hmin _ _ Hs'). specialize (Hmin' _ _ Hs). lia.
Qed.

Lemma occurs_first (pat s : string) :
  occurs pat s -> exists pre post, first_occurrence pat pre post s.
Proof.
  intros Hocc.
  destruct (indexOf_from_spec pat s 0) as [[_ Hno]|[pre [post [Hf _]]]].
  - contradiction.
  - eauto.
Qed.

(** ** The in-memory host *)

Lemma stub_lookup_update {A : Type} (key : string) (v : A) table :
  Stub.lookup key (Stub.update key v table) = Some v.
Proof.
  induction table as [|[k v'] rest IH]; simpl.
  - now rewrite String.eqb_refl.
  - destruct (k =? key) eqn:Hk; simpl; rewrite Hk; [reflexivity | exact IH].
Qed.

Lemma stub_find_put (names : list string) (data : string)
  (children children' : list (string * Stub.node)) :
  Stub.put names data children = Some children' ->
  Stub.find names children' = Some (Stub.File data).
Proof.
  revert children children'.
  induction names as [|name rest IH]; intros children children'; simpl.
  - discriminate.
  - destruct rest as [|next rest].
    + destruct (Stub.lookup name children) as [[old| |sub]|];
        try discriminate; intros Hput; inversion Hput; subst;
        now rewrite stub_lookup_update.
    + destruct (Stub.lookup name children) as [[old| |sub]|]; try discriminate.
      destruct (Stub.put (next :: rest) data sub) as [sub'|] eqn:Hsub;
        [|discriminate].
      intros Hput. inversion Hput; subst.
      rewrite stub_lookup_update. now apply IH with (children := sub).
Qed.

(** The in-memory file system reads back what was written. *)
Lemma stub_laws (service : Stub.Service) :
  FileSystemLaws Stub.World (H := Stub.host service).
Proof.
  constructor. intros path data w w'. simpl. unfold Stub.writeFile, Stub.readFile.
  destruct (Stub.put (Stub.components path) data (Stub.root w))
    as [children|] eqn:Hput; [|discriminate].
  intros Hw. inversion Hw; subst; clear Hw. simpl.
  now rewrite (stub_find_put _ _ _ Hput).
Qed.

(** ** tools.ts *)

Section ToolProperties.

Context {World : Type} {H : Host World}.

Lemma await_throws_HostError {S A : Type} (op : S -> S * host_result A)
  (s s' : S) (e : exn) :
  await op s = (s', Throw e) -> exists message, e = HostError message.
Proof.
  unfold await. destruct (op s) as [s1 [a|message]]; intros Heq;
    inversion Heq; eauto.
Qed.

Lemma await_ok {S A : Type} (op : S -> S * host_result A) (s s' : S) (a : A) :
  await op s = (s', Ok a) <-> op s = (s', HostOk a).
Proof.
  unfold await. destruct (op s) as [s1 [a1|message]];
    split; intros Heq; inversion Heq; reflexivity.
Qed.

(** Without an occurrence of [oldText], [editFile] throws and writes
    nothing. *)
Lemma editFile_absent (filePath oldText newText : string) (w : World) content :
  fs_readFile filePath w = HostOk content ->
  ~ occurs oldText content ->
  editFile filePath oldText newText w = (w, Throw (JsError "oldText not found")).
Proof.
  intros Hread Hno. unfold editFile, bind, await_read. rewrite Hread.
  apply indexOf_absent_iff in Hno. now rewrite Hno.
Qed.

(** With one, [editFile] is the write of the content with the first
    occurrence replaced. *)
Lemma editFile_present (filePath oldText newText : string) (w : World)
  content pre post :
  fs_readFile filePath w = HostOk content ->
  first_occurrence oldText pre post content ->
  editFile filePath oldText newText w
  = await (fs_writeFile filePath (pre ++ newText ++ post)) w.
Proof.
  intros Hread Hfirst. unfold editFile, bind, await_read. rewrite Hread.
  rewrite (indexOf_first Hfirst). destruct Hfirst as [-> _].
  destruct (Z.eqb_spec (Z.of_nat (String.length pre)) (-1)) as [?|_]; [lia|].
  now rewrite slice_before, slice_after.
Qed.



(** On text as the file system hands it over, a [writeFile] that
    succeeds has made the directory of the path with [recursive: true],
    then written the file, whatever was at the path before; [readFile]
    of the path then returns the text that was written. *)
Lemma readFile_after_writeFile {L : FileSystemLaws World}
  (filePath content : string) (w w' : World) :
  writeFile filePath content w = (w', Ok tt) ->
  readFile filePath w' = (w', Ok content) /\
  exists w1,
    fs_mkdir_recursive (path_dirname filePath) w = (w1, HostOk tt) /\
    fs_writeFile filePath content w1 = (w', HostOk tt).
Proof.
  unfold writeFile, bind. intros Hw.
  destruct (await (fs_mkdir_recursive (path_dirname filePath)) w)
    as [w1 [[]|e]] eqn:Hmk; [|discriminate].
  apply await_ok in Hmk. apply await_ok in Hw. split.
  - unfold readFile, await_read. now rewrite (read_after_write _ _ _ Hw).
  - now exists w1.
Qed.


End ToolProperties.

(** ** Text and bytes *)

Ltac zlia := Z.to_euclidean_division_equations; lia.

(** Settles the comparisons of a goal by arithmetic. *)
Ltac decide_tests :=
  repeat match goal with
         | |- context [Z.leb ?a ?b] =>
             first [ replace (Z.leb a b) with true by (symmetry; apply Z.leb_le; zlia)
                   | replace (Z.leb a b) with false by (symmetry; apply Z.leb_gt; zlia) ]
         | |- context [Z.ltb ?a ?b] =>
             first [ replace (Z.ltb a b) with true by (symmetry; apply Z.ltb_lt; zlia)
                   | replace (Z.ltb a b) with false by (symmetry; apply Z.ltb_ge; zlia) ]
         | |- context [Z.eqb ?a ?b] =>
             first [ replace (Z.eqb a b) with true by (symmetry; apply Z.eqb_eq; zlia)
                   | replace (Z.eqb a b) with false by (symmetry; apply Z.eqb_neq; zlia) ]
         | |- _ => progress cbn [andb orb]
         end.

Section Codec.

Import Utf8.

Local Open Scope Z_scope.

(** The bytes of a code point that is no surrogate are read as that code
    point, whatever follows. *)
Lemma code_points_scalar (cp : Z) (rest : list Z) :
  0 <= cp <= 0x10FFFF -> ~ (0xD800 <= cp <= 0xDFFF) ->
  code_points initial (bytes_of cp ++ rest)%list = cp :: code_points initial rest.
Proof.
  intros Hrange Hscalar. unfold bytes_of.
  destruct (Z.leb_spec cp 0x7F) as [H1|H1].
  { cbn [app code_points next_byte initial remaining]. unfold first_byte.
    decide_tests. reflexivity. }
  destruct (Z.leb_spec cp 0x7FF) as [H2|H2].
  { cbn [app code_points]. unfold next_byte at 1. cbn [remaining initial].
    unfold first_byte. decide_tests. unfold next_byte.
    cbn [remaining lower upper acc]. decide_tests. cbn [app]. f_equal. zlia. }
  destruct (Z.leb_spec cp 0xFFFF) as [H3|H3].
  { cbn [app code_points]. unfold next_byte at 1. cbn [remaining initial].
    unfold first_byte. decide_tests. unfold next_byte at 1.
    cbn [remaining lower upper acc].
    destruct (Z.eqb_spec (0xE0 + cp / 0x1000) 0xE0) as [E0|E0];
      destruct (Z.eqb_spec (0xE0 + cp / 0x1000) 0xED) as [ED|ED];
      decide_tests; unfold next_byte; cbn [remaining lower upper acc];
      decide_tests; cbn [app]; f_equal; zlia. }
  cbn [app code_points]. unfold next_byte at 1. cbn [remaining initial].
  unfold first_byte. decide_tests. unfold next_byte at 1.
  cbn [remaining lower upper acc].
  destruct (Z.eqb_spec (0xF0 + cp / 0x40000) 0xF0) as [F0|F0];
    destruct (Z.eqb_spec (0xF0 + cp / 0x40000) 0xF4) as [F4|F4];
    decide_tests; unfold next_byte at 1; cbn [remaining lower upper acc];
    decide_tests; unfold next_byte; cbn [remaining lower upper acc];
    decide_tests; cbn [app]; f_equal; zlia.
Qed.

Lemma decode_scalar (cp : Z) (rest : list Z) :
  0 <= cp <= 0x10FFFF -> ~ (0xD800 <= cp <= 0xDFFF) ->
  decode (bytes_of cp ++ rest) = (units_of cp ++ decode rest)%list.
Proof.
  intros Hrange Hscalar. unfold decode.
  now rewrite code_points_scalar.
Qed.

Lemma surrogate_tests (u : Z) :
  (is_high_surrogate u = true <-> 0xD800 <= u <= 0xDBFF) /\
  (is_low_surrogate u = true <-> 0xDC00 <= u <= 0xDFFF).
Proof.
  unfold is_high_surrogate, is_low_surrogate.
  rewrite !andb_true_iff, !Z.leb_le. tauto.
Qed.

(** A surrogate pair is written as one code point, which reads as the
    pair. *)
Lemma units_of_pair (high low : Z) :
  is_high_surrogate high = true -> is_low_surrogate low = true ->
  0 <= code_point high low <= 0x10FFFF /\
  ~ (0xD800 <= code_point high low <= 0xDFFF) /\
  units_of (code_point high low) = [high; low].
Proof.
  intros Hhigh Hlow. apply surrogate_tests in Hhigh, Hlow.
  unfold code_point, units_of. split; [lia|]. split; [lia|].
  replace (_ <=? 0xFFFF) with false by (symmetry; apply Z.leb_gt; lia).
  f_equal; [|f_equal]; zlia.
Qed.

Lemma units_of_unit (u : Z) : is_unit u -> units_of u = [u].
Proof.
  unfold is_unit, units_of. intros Hu.
  now replace (u <=? 0xFFFF) with true by (symmetry; apply Z.leb_le; lia).
Qed.

Lemma decode_encode_bounded (n : nat) (s : js_string) :
  (List.length s <= n)%nat -> Forall is_unit s ->
  decode (encode s) = toWellFormed s.
Proof.
  revert s. induction n as [|n IH]; intros s Hlen Hunits.
  - destruct s; [reflexivity | simpl in Hlen; lia].
  - destruct s as [|u rest]; [reflexivity|].
    inversion Hunits as [|u' rest' Hu Hrest]; subst.
    assert (Hreplacement : forall bytes,
               decode (bytes_of REPLACEMENT ++ bytes)
               = REPLACEMENT :: decode bytes).
    { intros bytes. rewrite decode_scalar by (unfold REPLACEMENT; lia). reflexivity. }
    simpl in Hlen. cbn [encode toWellFormed].
    destruct (is_high_surrogate u) eqn:Hhigh.
    + destruct rest as [|low rest'].
      * rewrite <- (app_nil_r (bytes_of REPLACEMENT)), Hreplacement. reflexivity.
      * destruct (is_low_surrogate low) eqn:Hlow.
        -- destruct (units_of_pair u low Hhigh Hlow) as (Hrange & Hscalar & Hpair).
           rewrite decode_scalar, Hpair by assumption. simpl.
           rewrite IH; [reflexivity | simpl in Hlen; lia | now inversion Hrest].
        -- rewrite Hreplacement, IH; [reflexivity | lia | exact Hrest].
    + destruct (is_low_surrogate u) eqn:Hlow.
      * rewrite Hreplacement, IH; [reflexivity | lia | exact Hrest].
      * rewrite decode_scalar, units_of_unit, IH; try assumption; try lia;
          try reflexivity; unfold is_unit in Hu.
        -- lia.
        -- intros Hsur.
           assert (Hno : is_high_surrogate u = true \/ is_low_surrogate u = true).
           { destruct (surrogate_tests u) as [Hh Hl].
             destruct (Z.le_gt_cases u 0xDBFF); [left; apply Hh | right; apply Hl]; lia. }
           destruct Hno; congruence.
Qed.

(** Written and read again, a string comes back with U+FFFD for each
    surrogate that has no partner, and is otherwise unchanged. *)
Lemma decode_encode (s : js_string) :
  Forall is_unit s -> decode (encode s) = toWellFormed s.
Proof. intros Hunits. now apply (decode_encode_bounded (n := List.length s)). Qed.

Lemma toWellFormed_bounded (n : nat) (s : js_string) :
  (List.length s <= n)%nat ->
  (isWellFormed s = true <-> toWellFormed s = s).
Proof.
  revert s. induction n as [|n IH]; intros s Hlen.
  - destruct s; [now split | simpl in Hlen; lia].
  - destruct s as [|u rest]; [now split|].
    simpl in Hlen. cbn [isWellFormed toWellFormed].
    destruct (is_high_surrogate u) eqn:Hhigh.
    + destruct rest as [|low rest'].
      * split; [discriminate|]. intros Heq. injection Heq as <-. discriminate.
      * destruct (is_low_surrogate low) eqn:Hlow; simpl.
        -- rewrite IH by (simpl in Hlen; lia). split; [congruence|].
           intros Heq. now injection Heq.
        -- split; [discriminate|]. intros Heq. injection Heq as <- _. discriminate.
    + destruct (is_low_surrogate u) eqn:Hlow.
      * split; [discriminate|]. intros Heq. injection Heq as <- _. discriminate.
      * rewrite IH by lia. split; [congruence|]. intros Heq. now injection Heq.
Qed.

(** The strings that come back as they are: the well-formed ones. *)
Lemma toWellFormed_same (s : js_string) :
  isWellFormed s = true <-> toWellFormed s = s.
Proof. now apply (toWellFormed_bounded (n := List.length s)). Qed.

End Codec.

Lemma memdisk_same_refl (path : Utf8.js_string) : MemDisk.same path path = true.
Proof.
  induction path as [|u rest IH]; [reflexivity|].
  simpl. now rewrite Z.eqb_refl, IH.
Qed.

(** The disk in memory keeps what is written. *)
Lemma memdisk_laws : DiskLaws MemDisk.World (D := MemDisk.disk).
Proof.
  constructor. intros path bytes w w' Hwrite. simpl in *.
  inversion Hwrite; subst. simpl. now rewrite memdisk_same_refl.
Qed.

Section EncodedProperties.

Context {World : Type} {D : Disk World}.

Import Utf8.

(** C8 (as the code has it).  A [writeFile] that succeeds has made the
    directory of the path with [recursive: true], then written the bytes
    of the content in UTF-8 to the file, whatever was at the path before.
    [readFile] of the path then returns the content with U+FFFD in the
    place of each surrogate that has no partner: exactly the content that
    was written when, and only when, the content is well-formed. *)
Theorem read_after_write_in_utf8 {L : DiskLaws World}
  (filePath content : js_string) (w w' : World) :
  Forall is_unit content ->
  Encoded.writeFile filePath content w = (w', Ok tt) ->
  Encoded.readFile filePath w' = (w', Ok (toWellFormed content)) /\
  (Encoded.readFile filePath w' = (w', Ok content) <-> isWellFormed content = true) /\
  exists w1,
    disk_mkdir_recursive (disk_dirname filePath) w = (w1, HostOk tt) /\
    disk_writeFile filePath (encode content) w1 = (w', HostOk tt).
Proof.
  intros Hunits. unfold Encoded.writeFile, bind. intros Hw.
  destruct (await (disk_mkdir_recursive (disk_dirname filePath)) w)
    as [w1 [[]|e]] eqn:Hmk; [|discriminate].
  unfold await in Hmk, Hw.
  destruct (disk_mkdir_recursive (disk_dirname filePath) w)
    as [w1' [[]|message]] eqn:Hmkdir; [|discriminate].
  injection Hmk as ->.
  unfold Encoded.fs_writeFile_utf8 in Hw.
  destruct (disk_writeFile filePath (encode content) w1)
    as [w2 [[]|message]] eqn:Hwrite; [|discriminate].
  injection Hw as ->.
  assert (Hread : Encoded.readFile filePath w' = (w', Ok (toWellFormed content))).
  { unfold Encoded.readFile, await_read, Encoded.fs_readFile_utf8.
    now rewrite (bytes_after_write _ _ _ Hwrite), decode_encode. }
  split; [exact Hread|]. split.
  - rewrite Hread, toWellFormed_same. split; [congruence|]. now intros ->.
  - now exists w1.
Qed.

End EncodedProperties.

(** ** searchInFiles *)

Section SearchProperties.

Context {World : Type} {H : Host World}.

Import SearchSpec.

(** The recursive call of [walk] on a directory is [walk] on its entries. *)
Lemma walk_entry_directory (dirPath name : string) (entries : list Dirent)
  (results : list string) :
  walk_entry dirPath (DirEntry name (HostOk entries)) results
  = walk_entries (path_join dirPath name) entries results.
Proof.
  simpl. generalize (path_join dirPath name) as fullPath. intros fullPath.
  revert results. induction entries as [|entry rest IH]; intros results.
  - reflexivity.
  - simpl. destruct (walk_entry fullPath entry results); [apply IH | reflexivity].
Qed.

(** [walk] only reads. *)
Lemma walk_reads (dirPath : string) (results : list string) (w : World) :
  fst (walk dirPath results w) = w.
Proof.
  unfold walk, bind, await_read. now destruct (fs_readdir dirPath w).
Qed.

Lemma set_lastIndex_same (regex : RegExp) :
  lastIndex regex = 0 -> set_lastIndex regex 0 = regex.
Proof. destruct regex; simpl; intros ->; reflexivity. Qed.

(** From position 0, [test] answers whether the line matches, and the
    assignment that follows it puts the position back to 0. *)
Lemma test_then_reset (regex : RegExp) (line : string) :
  lastIndex regex = 0 ->
  fst (test regex line) = matches_line (matcher regex) line /\
  set_lastIndex (snd (test regex line)) 0 = regex.
Proof.
  destruct regex as [m g y l]. simpl. intros ->.
  unfold test, matches_line, set_lastIndex. simpl.
  destruct (g || y); simpl; destruct (m line 0); simpl; split; reflexivity.
Qed.

Lemma forEach_line_expected (file : string) (lines : list string) (index : nat)
  (regex : RegExp) (matches : list SearchMatch) :
  lastIndex regex = 0 ->
  forEach_line file lines index regex matches
  = (regex, (matches ++ matching_lines (matcher regex) file lines index)%list).
Proof.
  intros H0. revert index matches.
  induction lines as [|line rest IH]; intros index matches; simpl.
  - now rewrite app_nil_r.
  - destruct (test_then_reset regex line H0) as [Hfound Hreset].
    destruct (test regex line) as [found regex'] eqn:Htest. simpl in Hfound, Hreset.
    rewrite Hreset, IH, Hfound.
    destruct (matches_line (matcher regex) line); simpl;
      [now rewrite <- app_assoc | reflexivity].
Qed.

Lemma for_files_expected (files : list string) (regex : RegExp)
  (matches : list SearchMatch) (w : World) :
  lastIndex regex = 0 ->
  for_files files regex matches w
  = (regex, (matches ++ expected (matcher regex) files w)%list).
Proof.
  intros H0. revert matches.
  induction files as [|file rest IH]; intros matches; simpl.
  - now rewrite app_nil_r.
  - unfold matches_in_file. destruct (fs_readFile file w) as [content|message].
    + rewrite forEach_line_expected by exact H0. rewrite IH.
      now rewrite <- app_assoc.
    + now rewrite IH.
Qed.


(** A [RegExp] object that starts at 0 or does not keep a position answers
    for every line whether the line matches, and is back at 0 after the
    assignment. *)
Lemma test_then_reset_plain (regex : RegExp) (l : string) :
  lastIndex regex = 0 \/ (global regex = false /\ sticky regex = false) ->
  fst (test regex l) = matches_line (matcher regex) l.
Proof.
  destruct regex as [m g y i]. simpl. unfold test, matches_line. simpl.
  intros [->|[-> ->]]; simpl.
  - destruct (g || y); simpl; now destruct (m l 0).
  - now destruct (m l 0).
Qed.

(** After the first line the object is at 0, whatever it was before. *)
Lemma forEach_line_first (file0 : string) (l : string) (rest : list string)
  (index : nat) (regex : RegExp) (matches : list SearchMatch) :
  forEach_line file0 (l :: rest) index regex matches
  = (set_lastIndex regex 0,
     (matches
      ++ (if fst (test regex l)
          then [{| file := file0; line := index + 1; text := l |}] else [])
      ++ matching_lines (matcher regex) file0 rest (S index))%list).
Proof.
  simpl. destruct (test regex l) as [found regex'] eqn:Htest.
  assert (Hsame : set_lastIndex regex' 0 = set_lastIndex regex 0).
  { unfold test in Htest. destruct regex as [m g y i]. simpl in Htest.
    destruct (g || y); [destruct (String.length l <? i)%nat|];
      try destruct (m l _); inversion Htest; reflexivity. }
  rewrite Hsame, forEach_line_expected by reflexivity. simpl.
  destruct found; simpl; [now rewrite <- app_assoc | reflexivity].
Qed.




(** The same for a [RegExp] object handed in with [lastIndex] at 0. *)
Lemma searchInFiles_regex_object (regex : RegExp) (dirPath : option string)
  (files : list string) (w : World) :
  lastIndex regex = 0 ->
  walk (match dirPath with Some d => d | None => "." end) [] w = (w, Ok files) ->
  searchInFiles (inr regex) dirPath w = (w, Ok (expected (matcher regex) files w)).
Proof.
  intros H0 Hwalk. unfold searchInFiles, bind, ret. rewrite Hwalk.
  now rewrite for_files_expected.
Qed.

End SearchProperties.

(** ** The dispatcher *)

Section DispatcherProperties.

Context {World : Type} {H : Host World}.

(** A required argument that is not a string: [requireString] throws
    before [readFile] is called. *)
Lemma runTool_readFile_invalid (input : jsval) (w : World) :
  (forall s, get input "filePath" <> JString s) ->
  runTool "readFile" input w = (w, Throw (JsError "Invalid filePath")).
Proof.
  intros Hnot. unfold runTool. simpl. unfold bind, requireString.
  destruct (get input "filePath"); try reflexivity.
  now destruct (Hnot s).
Qed.

(** A name that no descriptor of [tools] has: the final [throw] of
    [runTool]. *)
Lemma runTool_unknown (name : string) (input : jsval) (w : World) :
  ~ In name (map tool_name tools) ->
  runTool name input w = (w, Throw (JsError ("Unknown tool: " ++ name))).
Proof.
  intros Hnot. unfold runTool.
  repeat match goal with
         | |- context [name =? ?known] =>
             destruct (String.eqb_spec name known) as [->|_];
             [exfalso; apply Hnot; simpl; tauto|]
         end.
  reflexivity.
Qed.

(** A required argument of a tool that is not a string: [runTool] throws
    for it, or for a required argument before it, and calls no tool. *)
Lemma runTool_validates_required (tool : Tool) (field : string) (input : jsval)
  (w : World) :
  In tool tools ->
  In field (required tool) ->
  (forall s, get input field <> JString s) ->
  exists missing,
    In missing (required tool) /\
    runTool (tool_name tool) input w = (w, Throw (JsError ("Invalid " ++ missing))).
Proof.
  intros Htool Hfield Hnot. simpl in Htool.
  repeat (destruct Htool as [<-|Htool]); try contradiction; simpl in Hfield;
    repeat (destruct Hfield as [<-|Hfield]); try contradiction;
    unfold runTool; simpl; unfold bind, requireString, ret, throw;
    repeat match goal with
           | |- context [get input ?f] =>
               let Hf := fresh "Hf" in destruct (get input f) eqn:Hf
           end;
    try solve [eexists; split; [|reflexivity]; simpl; tauto];
    exfalso; eapply Hnot; reflexivity.
Qed.

(** A failure of the file system goes through [runTool] as it is. *)
Lemma runTool_readFile_unreadable (filePath message : string)
  (fields : list (string * jsval)) (w : World) :
  lookup_field "filePath" fields = JString filePath ->
  fs_readFile filePath w = HostFail message ->
  runTool "readFile" (JObject fields) w = (w, Throw (HostError message)).
Proof.
  intros Hget Hread. unfold runTool. simpl. unfold bind, requireString.
  rewrite Hget. unfold ret, readFile, await_read. now rewrite Hread.
Qed.

(** An edit whose [oldText] is not in the file: the [throw] of [editFile]
    goes through [runTool]. *)
Lemma runTool_editFile_not_found (filePath oldText newText content : string)
  (fields : list (string * jsval)) (w : World) :
  lookup_field "filePath" fields = JString filePath ->
  lookup_field "oldText" fields = JString oldText ->
  lookup_field "newText" fields = JString newText ->
  fs_readFile filePath w = HostOk content ->
  ~ occurs oldText content ->
  runTool "editFile" (JObject fields) w
  = (w, Throw (JsError "oldText not found")).
Proof.
  intros Hpath Hold Hnew Hread Hno. unfold runTool. simpl. unfold bind, requireString.
  rewrite Hpath, Hold, Hnew. unfold ret.
  now rewrite (editFile_absent filePath newText w Hread Hno).
Qed.

(** A command that fails: the rejection of [execAsync] goes through
    [runTool]. *)
Lemma runTool_runCommand_failure (command message : string)
  (fields : list (string * jsval)) (w w' : World) :
  lookup_field "command" fields = JString command ->
  lookup_field "options" fields = JUndefined ->
  execAsync command (JObject []) w = (w', HostFail message) ->
  runTool "runCommand" (JObject fields) w = (w', Throw (HostError message)).
Proof.
  intros Hcommand Hoptions Hexec. unfold runTool. simpl. unfold bind, requireString.
  rewrite Hcommand, Hoptions. unfold ret, runCommand, await. simpl.
  now rewrite Hexec.
Qed.

End DispatcherProperties.

(** ** The orchestration loop *)

Section LoopProperties.

Context {World : Type} {H : Host World}.

Lemma run_eta (r : Run World) :
  {| world := world r; toolLog := toolLog r; requests := requests r |} = r.
Proof. now destruct r. Qed.

(** One turn of the loop over the tool calls. *)
Lemma for_toolUses_step (toolUse : ToolUse) (rest : list ToolUse)
  (toolResults : list ToolResultBlockParam) (r : Run World) :
  for_toolUses (toolUse :: rest) toolResults r
  = match runTool (name toolUse) (normalizeToolInput (input toolUse)) (world r) with
    | (w1, Ok result) =>
        for_toolUses rest
          (toolResults
           ++ [{| tool_use_id := id toolUse; content := toolContent result |}])%list
          {| world := w1;
             toolLog := (toolLog r
                         ++ [{| log_name := name toolUse;
                                log_input := normalizeToolInput (input toolUse);
                                log_output := toolContent result |}])%list;
             requests := requests r |}
    | (w1, Throw e) =>
        ({| world := w1; toolLog := toolLog r; requests := requests r |}, Throw e)
    end.
Proof.
  simpl. unfold bind, in_world, onToolLog.
  now destruct (runTool (name toolUse) (normalizeToolInput (input toolUse)) (world r))
    as [w1 [result|e]].
Qed.

(** Calls that run to their end are passed, and the loop goes on with
    the rest. *)
Lemma for_toolUses_sequential (done more : list ToolUse) (w2 : World)
  (results : list ToolResultBlockParam) (logs : list ToolLogEntry)
  (toolResults : list ToolResultBlockParam) (r : Run World) :
  Sequential done (world r) w2 results logs ->
  for_toolUses (done ++ more) toolResults r
  = for_toolUses more (toolResults ++ results)%list
      {| world := w2; toolLog := (toolLog r ++ logs)%list; requests := requests r |}.
Proof.
  intros Hseq. remember (world r) as w eqn:Hw. revert r toolResults Hw.
  induction Hseq as [w|toolUse rest w w1 w' result results logs Hrun Hseq IH];
    intros r toolResults ->.
  - simpl app. now rewrite !app_nil_r, run_eta.
  - simpl app. rewrite for_toolUses_step, Hrun, IH by reflexivity.
    simpl. now rewrite <- !app_assoc.
Qed.

(** What the loop over the tool calls has done when it ends: all of them
    in sequence, or those before the one that threw. *)
Lemma for_toolUses_inv (toolUses : list ToolUse)
  (toolResults : list ToolResultBlockParam) (r r' : Run World)
  (out : result (list ToolResultBlockParam)) :
  for_toolUses toolUses toolResults r = (r', out) ->
  requests r' = requests r /\
  match out with
  | Ok toolResults' =>
      exists results logs,
        Sequential toolUses (world r) (world r') results logs /\
        toolResults' = (toolResults ++ results)%list /\
        toolLog r' = (toolLog r ++ logs)%list
  | Throw e =>
      exists done toolUse rest results logs w2,
        toolUses = (done ++ toolUse :: rest)%list /\
        Sequential done (world r) w2 results logs /\
        runTool (name toolUse) (normalizeToolInput (input toolUse)) w2
        = (world r', Throw e) /\
        toolLog r' = (toolLog r ++ logs)%list
  end.
Proof.
  revert toolResults r. induction toolUses as [|toolUse rest IH];
    intros toolResults r Hrun.
  - inversion Hrun; subst. split; [reflexivity|].
    exists [], []. rewrite !app_nil_r. repeat split. constructor.
  - rewrite for_toolUses_step in Hrun.
    destruct (runTool (name toolUse) (normalizeToolInput (input toolUse)) (world r))
      as [w1 [result|e]] eqn:Htool.
    + apply IH in Hrun as [Hreq Hout]. simpl in Hreq. split; [exact Hreq|].
      destruct out as [toolResults'|e]; simpl in Hout.
      * destruct Hout as (results & logs & Hseq & -> & Hlog).
        eexists (_ :: results), (_ :: logs). split; [|split].
        -- eapply Sequential_cons; eauto.
        -- now rewrite <- app_assoc.
        -- now rewrite Hlog, <- app_assoc.
      * destruct Hout as (done & failing & rest' & results & logs & w2
                          & -> & Hseq & Hfail & Hlog).
        exists (toolUse :: done), failing, rest'.
        eexists (_ :: results), (_ :: logs), w2. split; [reflexivity|].
        split; [eapply Sequential_cons; eauto|]. split; [exact Hfail|].
        now rewrite Hlog, <- app_assoc.
    + inversion Hrun; subst. simpl. split; [reflexivity|].
      exists [], toolUse, rest, [], [], (world r).
      rewrite app_nil_r. repeat split; [constructor | exact Htool].
Qed.


(** The calls after the first ones start in the world those left. *)
Lemma Sequential_app (first second : list ToolUse) (w w' : World)
  (results : list ToolResultBlockParam) (logs : list ToolLogEntry) :
  Sequential (first ++ second) w w' results logs ->
  exists w1 results1 results2 logs1 logs2,
    Sequential first w w1 results1 logs1 /\
    Sequential second w1 w' results2 logs2 /\
    results = (results1 ++ results2)%list /\ logs = (logs1 ++ logs2)%list.
Proof.
  revert w results logs. induction first as [|toolUse first IH];
    intros w results logs Hseq; simpl in Hseq.
  - exists w, [], results, [], logs. repeat split; auto. constructor.
  - inversion Hseq as [|tu rest w0 w1 w0' result results' logs' Hrun Hrest]; subst.
    apply IH in Hrest
      as (w2 & results1 & results2 & logs1 & logs2 & H1 & H2 & -> & ->).
    exists w2. eexists (_ :: results1), results2, (_ :: logs1), logs2.
    repeat split; eauto. eapply Sequential_cons; eauto.
Qed.

(** The body of the loop, case by case. *)
Lemma round_cases (messages : list MessageParam) (r : Run World) :
  round messages r
  = match messages_create messages (world r) with
    | (w1, HostFail message) =>
        ({| world := w1; toolLog := toolLog r; requests := S (requests r) |},
         Throw (HostError message))
    | (w1, HostOk response) =>
        let r1 := {| world := w1; toolLog := toolLog r;
                     requests := S (requests r) |} in
        match toolUsesOf response with
        | [] => (r1, Ok (Return (join (textsOf response))))
        | _ :: _ =>
            match for_toolUses (toolUsesOf response) [] r1 with
            | (r2, Ok toolResults) =>
                (r2, Ok (NextRound
                           (messages
                            ++ [{| role := assistant;
                                   message_content := Blocks response |};
                                {| role := user;
                                   message_content := ToolResults toolResults |}])%list))
            | (r2, Throw e) => (r2, Throw e)
            end
        end
    end.
Proof.
  unfold round, bind, create, await.
  destruct (messages_create messages (world r)) as [w1 [response|message]];
    [|reflexivity].
  destruct (toolUsesOf response) as [|toolUse rest]; [reflexivity|].
  cbn [List.length Nat.eqb].
  now destruct (for_toolUses (toolUse :: rest) [] _) as [r2 [toolResults|e]].
Qed.

Lemma for_rounds_step (remaining : nat) (messages : list MessageParam)
  (r : Run World) :
  for_rounds (S remaining) messages r
  = match round messages r with
    | (r1, Ok (Return text)) => (r1, Ok text)
    | (r1, Ok (NextRound messages')) => for_rounds remaining messages' r1
    | (r1, Throw e) => (r1, Throw e)
    end.
Proof.
  simpl. unfold bind. now destruct (round messages r) as [r1 [[text|messages']|e]].
Qed.

(** A turn of the loop sends one request. *)
Lemma round_requests (messages : list MessageParam) (r r' : Run World)
  (out : result Flow) :
  round messages r = (r', out) -> requests r' = S (requests r).
Proof.
  rewrite round_cases.
  destruct (messages_create messages (world r)) as [w1 [response|message]].
  - cbv zeta. destruct (toolUsesOf response) as [|toolUse rest].
    + intros Heq. now inversion Heq.
    + destruct (for_toolUses (toolUse :: rest) [] _)
        as [r2 [toolResults|e]] eqn:Hfor;
        apply for_toolUses_inv in Hfor as [Hreq _]; simpl in Hreq;
        intros Heq; inversion Heq; subst; exact Hreq.
  - intros Heq. now inversion Heq.
Qed.

(** Whatever the completion service does, a run of [remaining] turns
    sends at most [remaining] requests. *)
Lemma for_rounds_requests (remaining : nat) (messages : list MessageParam)
  (r r' : Run World) (out : result string) :
  for_rounds remaining messages r = (r', out) ->
  requests r <= requests r' <= requests r + remaining.
Proof.
  revert messages r. induction remaining as [|remaining IH]; intros messages r.
  - simpl. unfold ret. intros Heq. inversion Heq; subst. lia.
  - rewrite for_rounds_step.
    destruct (round messages r) as [r1 [[text|messages']|e]] eqn:Hround;
      apply round_requests in Hround.
    + intros Heq. inversion Heq; subst. lia.
    + intros Heq. apply IH in Heq. lia.
    + intros Heq. inversion Heq; subst. lia.
Qed.

(** A turn whose tool calls all run to their end goes on with the
    conversation extended. *)
Lemma round_goes_on (messages : list MessageParam) (r : Run World)
  (w1 w2 : World) (response : list ContentBlock)
  (results : list ToolResultBlockParam) (logs : list ToolLogEntry) :
  messages_create messages (world r) = (w1, HostOk response) ->
  toolUsesOf response <> [] ->
  Sequential (toolUsesOf response) w1 w2 results logs ->
  round messages r
  = ({| world := w2; toolLog := (toolLog r ++ logs)%list;
        requests := S (requests r) |},
     Ok (NextRound
           (messages
            ++ [{| role := assistant; message_content := Blocks response |};
                {| role := user; message_content := ToolResults results |}])%list)).
Proof.
  intros Hcreate Huses Hseq. rewrite round_cases, Hcreate. cbv zeta.
  destruct (toolUsesOf response) as [|toolUse rest] eqn:Hlist; [congruence|].
  rewrite <- (app_nil_r (toolUse :: rest)).
  rewrite (for_toolUses_sequential [] []
             {| world := w1; toolLog := toolLog r; requests := S (requests r) |} Hseq).
  reflexivity.
Qed.

(** A turn in which a tool call throws ends there, with the failure. *)
Lemma round_tool_fails (messages : list MessageParam) (r r' : Run World) (e : exn) :
  ToolFails messages r r' e -> round messages r = (r', Throw e).
Proof.
  intros (w1 & w2 & w3 & response & done & toolUse & rest & results & logs
          & Hcreate & Huses & Hseq & Hfail & ->).
  rewrite round_cases, Hcreate. cbv zeta. rewrite Huses.
  destruct (done ++ toolUse :: rest)%list as [|first others] eqn:Hlist;
    [now destruct done|].
  rewrite <- Hlist.
  rewrite (for_toolUses_sequential (toolUse :: rest) []
             {| world := w1; toolLog := toolLog r; requests := S (requests r) |} Hseq).
  rewrite for_toolUses_step. simpl world. now rewrite Hfail.
Qed.

(** The tool calls of a response all run to their end, or one of them
    throws. *)
Lemma round_with_tools (messages : list MessageParam) (r : Run World)
  (w1 : World) (response : list ContentBlock) :
  messages_create messages (world r) = (w1, HostOk response) ->
  (exists w2 results logs, Sequential (toolUsesOf response) w1 w2 results logs) \/
  (exists r' e, ToolFails messages r r' e).
Proof.
  intros Hcreate.
  destruct (for_toolUses (toolUsesOf response) []
              {| world := w1; toolLog := toolLog r; requests := S (requests r) |})
    as [r2 [toolResults|e]] eqn:Hfor;
    apply for_toolUses_inv in Hfor as [Hreq Hout]; simpl in Hreq, Hout.
  - destruct Hout as (results & logs & Hseq & _ & _). left. eauto.
  - destruct Hout as (done & toolUse & rest & results & logs & w2
                      & Hlist & Hseq & Hfail & Hlog).
    right. exists r2, e, w1, w2, (world r2), response, done, toolUse, rest, results, logs.
    repeat split; auto.
    destruct r2 as [w3 log n]; simpl in *. unfold after_turn. congruence.
Qed.

(** Each turn gone through has sent one request. *)
Lemma Turns_requests (k : nat) (messages messages' : list MessageParam)
  (r r' : Run World) :
  Turns k messages r messages' r' -> requests r' = requests r + k.
Proof.
  induction 1 as [messages r|k messages r w1 w2 response results logs messages' r'
                             Hcreate Huses Hseq Hturns IH].
  - lia.
  - rewrite IH. simpl. lia.
Qed.

(** The turns gone through are turns of the run: after them the run goes
    on from where they ended. *)
Lemma Turns_run (k : nat) (messages messages' : list MessageParam)
  (r r' : Run World) :
  Turns k messages r messages' r' ->
  forall remaining,
    for_rounds (k + remaining) messages r = for_rounds remaining messages' r'.
Proof.
  induction 1 as [messages r|k messages r w1 w2 response results logs messages' r'
                             Hcreate Huses Hseq Hturns IH]; intros remaining.
  - reflexivity.
  - cbn [Nat.add]. rewrite for_rounds_step.
    rewrite (round_goes_on messages r Hcreate Huses Hseq). apply IH.
Qed.

(** How a run of [remaining] turns ends: it has gone through a number of
    turns with tool calls that all ran to their end, and then the turns
    are used up, or the next turn ends the run, with an answer, with a
    failure of the request, or with a failure of a tool call. *)
Lemma for_rounds_cases (remaining : nat) (messages : list MessageParam)
  (r r' : Run World) (out : result string) :
  for_rounds remaining messages r = (r', out) ->
  exists k messages_k r_k,
    Turns k messages r messages_k r_k /\
    ((k = remaining /\ r' = r_k /\ out = Ok LIMIT_REACHED) \/
     (k < remaining /\
      exists w1 response,
        messages_create messages_k (world r_k) = (w1, HostOk response) /\
        toolUsesOf response = [] /\
        r' = {| world := w1; toolLog := toolLog r_k; requests := S (requests r_k) |} /\
        out = Ok (join (textsOf response))) \/
     (k < remaining /\ exists e, ServiceFails messages_k r_k r' e /\ out = Throw e) \/
     (k < remaining /\ exists e, ToolFails messages_k r_k r' e /\ out = Throw e)).
Proof.
  revert messages r. induction remaining as [|remaining IH]; intros messages r.
  - simpl. unfold ret. intros Heq. inversion Heq; subst.
    exists 0, messages, r'. split; [constructor|]. left. auto.
  - rewrite for_rounds_step.
    destruct (messages_create messages (world r)) as [w1 [response|message]] eqn:Hcreate.
    + destruct (toolUsesOf response) as [|toolUse rest] eqn:Huses.
      * rewrite round_cases, Hcreate. cbv zeta. rewrite Huses.
        intros Heq. inversion Heq; subst.
        exists 0, messages, r. split; [constructor|]. right; left.
        split; [lia|]. now exists w1, response.
      * destruct (round_with_tools messages r Hcreate)
          as [(w2 & results & logs & Hseq)|(r1 & e & Hfails)].
        -- rewrite (round_goes_on messages r Hcreate ltac:(congruence) Hseq).
           intros Hrest. apply IH in Hrest as (k & messages_k & r_k & Hturns & Hend).
           exists (S k), messages_k, r_k. split.
           ++ eapply Turns_next; eauto. congruence.
           ++ destruct Hend as [(-> & Hr & Hout)|[(Hk & Hend)|[(Hk & Hend)|(Hk & Hend)]]].
              ** left. auto.
              ** right; left. split; [lia | exact Hend].
              ** right; right; left. split; [lia | exact Hend].
              ** right; right; right. split; [lia | exact Hend].
        -- rewrite (round_tool_fails Hfails). intros Heq. inversion Heq; subst.
           exists 0, messages, r. split; [constructor|]. right; right; right.
           split; [lia|]. now exists e.
    + rewrite round_cases, Hcreate. intros Heq. inversion Heq; subst.
      exists 0, messages, r. split; [constructor|]. right; right; left.
      split; [lia|]. exists (HostError message). split; [|reflexivity].
      now exists w1, message.
Qed.

End LoopProperties.

Section LoopTheorems.

Context {World : Type} {H : Host World}.

(** The result of a turn without tool calls is the concatenation of the
    text blocks, block after block. *)
Lemma textsOf_app (first second : list ContentBlock) :
  textsOf (first ++ second) = (textsOf first ++ textsOf second)%list.
Proof.
  induction first as [|[text|toolUse|type] first IH]; simpl; congruence.
Qed.

Lemma join_app (first second : list string) :
  join (first ++ second) = join first ++ join second.
Proof.
  induction first as [|piece first IH]; simpl; [reflexivity|].
  now rewrite IH, append_assoc.
Qed.

(** What a run returns: the fixed message after its last turn, or the
    text of a response without tool calls, the last one received. *)
Lemma for_rounds_returns (remaining : nat) (messages : list MessageParam)
  (r r' : Run World) (text : string) :
  for_rounds remaining messages r = (r', Ok text) ->
  (text = LIMIT_REACHED /\ requests r' = requests r + remaining) \/
  (exists messages' w0 response,
      messages_create messages' w0 = (world r', HostOk response) /\
      toolUsesOf response = [] /\
      text = join (textsOf response)).
Proof.
  revert messages r. induction remaining as [|remaining IH]; intros messages r.
  - simpl. unfold ret. intros Heq. inversion Heq; subst. left. split; [reflexivity | lia].
  - rewrite for_rounds_step.
    destruct (round messages r) as [r1 [[text1|messages1]|e]] eqn:Hround.
    + intros Heq. inversion Heq; subst. right.
      rewrite round_cases in Hround.
      destruct (messages_create messages (world r)) as [w1 [response|message]] eqn:Hc;
        [|discriminate].
      cbv zeta in Hround. destruct (toolUsesOf response) as [|toolUse rest] eqn:Huses.
      * inversion Hround; subst. simpl. now exists messages, (world r), response.
      * destruct (for_toolUses (toolUse :: rest) [] _) as [r2 [toolResults|e]];
          discriminate.
    + intros Heq. pose proof (round_requests _ _ Hround) as Hreq.
      apply IH in Heq as [[-> Hn]|Hlast]; [left | right; exact Hlast].
      split; [reflexivity | lia].
    + discriminate.
Qed.

(** C1 (as the code has it).  A tool call that fails is not turned into a
    tool result: the failure is thrown by [runTool], and nothing between
    [runTool] and the caller of [runWithTools] catches it.  In a turn
    whose response asks for the calls [done], then [toolUse], then
    [rest], when the calls of [done] run to their end and [toolUse]
    throws [e], the run ends there with [e] thrown: the calls of [rest]
    are not dispatched, no tool-result turn is made, and no further
    request is sent.  [readFile] without a string [filePath] is such a
    call: it throws [Error("Invalid filePath")]. *)
Theorem tool_failure_ends_the_run
  (remaining : nat) (messages : list MessageParam) (r : Run World)
  (w1 w2 w3 : World) (response : list ContentBlock)
  (done rest : list ToolUse) (toolUse : ToolUse)
  (results : list ToolResultBlockParam) (logs : list ToolLogEntry) (e : exn) :
  messages_create messages (world r) = (w1, HostOk response) ->
  toolUsesOf response = (done ++ toolUse :: rest)%list ->
  Sequential done w1 w2 results logs ->
  runTool (name toolUse) (normalizeToolInput (input toolUse)) w2 = (w3, Throw e) ->
  for_rounds (S remaining) messages r
  = ({| world := w3; toolLog := (toolLog r ++ logs)%list;
        requests := S (requests r) |}, Throw e) /\
  (forall r' flow, round messages r <> (r', Ok flow)) /\
  (forall (input : jsval) (w : World),
      (forall s, get (normalizeToolInput input) "filePath" <> JString s) ->
      runTool "readFile" (normalizeToolInput input) w
      = (w, Throw (JsError "Invalid filePath"))).
Proof.
  intros Hcreate Huses Hseq Hfail.
  assert (Hround : round messages r
                   = ({| world := w3; toolLog := (toolLog r ++ logs)%list;
                         requests := S (requests r) |}, Throw e)).
  { rewrite round_cases, Hcreate. cbv zeta. rewrite Huses.
    destruct (done ++ toolUse :: rest)%list as [|first others] eqn:Hlist;
      [now destruct done|].
    rewrite <- Hlist.
    rewrite (for_toolUses_sequential (toolUse :: rest) []
               {| world := w1; toolLog := toolLog r; requests := S (requests r) |} Hseq).
    rewrite for_toolUses_step. simpl world. now rewrite Hfail. }
  split; [|split].
  - now rewrite for_rounds_step, Hround.
  - intros r' flow. rewrite Hround. discriminate.
  - intros input w. apply runTool_readFile_invalid.
Qed.

(** A run of at least one turn sends at least one request. *)
Lemma for_rounds_first_request (remaining : nat) (messages : list MessageParam)
  (r r' : Run World) (out : result string) :
  for_rounds (S remaining) messages r = (r', out) ->
  requests r < requests r'.
Proof.
  rewrite for_rounds_step.
  destruct (round messages r) as [r1 [[text|messages']|e]] eqn:Hround;
    apply round_requests in Hround; intros Heq.
  - inversion Heq; subst. lia.
  - apply for_rounds_requests in Heq. lia.
  - inversion Heq; subst. lia.
Qed.

(** C2 (as the code has it).  Whatever the completion service does, a run
    ends after at least one and at most six requests.  With a completion
    service that always asks for a tool it ends in one of two ways.
    Either it goes through six turns, each with a request and with tool
    calls that all run to their end, and returns the message
    ["Tool loop limit reached"] in the state the sixth turn left.  Or it
    goes through fewer than six such turns, and in the turn after them a
    tool call of the response throws: the run ends there, in the state
    that call left, with the failure thrown.  It never returns the text
    of a response. *)
Theorem loop_stops_at_round_limit (prompt : string) (r : Run World) :
  exists r' out,
    runWithTools prompt r = (r', out) /\
    requests r < requests r' <= requests r + MAX_ROUNDS /\
    (always_requests_tool World ->
     (out = Ok LIMIT_REACHED /\
      requests r' = requests r + MAX_ROUNDS /\
      exists messages',
        Turns MAX_ROUNDS [{| role := user; message_content := Prompt prompt |}] r
          messages' r') \/
     (exists k messages_k r_k e,
         k < MAX_ROUNDS /\
         Turns k [{| role := user; message_content := Prompt prompt |}] r
           messages_k r_k /\
         ToolFails messages_k r_k r' e /\
         out = Throw e /\
         requests r' = requests r + k + 1)).
Proof.
  destruct (runWithTools prompt r) as [r' out] eqn:Hrun.
  exists r', out. split; [reflexivity|]. unfold runWithTools in Hrun. split.
  - pose proof (for_rounds_requests _ _ _ Hrun).
    pose proof (for_rounds_first_request _ _ _ Hrun). lia.
  - intros Hservice.
    apply for_rounds_cases in Hrun as (k & messages_k & r_k & Hturns & Hend).
    pose proof (Turns_requests Hturns) as Hrequests.
    destruct Hend as [(-> & -> & ->)
                     |[(Hk & w1 & response & Hcreate & Huses & _)
                      |[(Hk & e & (w1 & message & Hcreate & _) & _)
                       |(Hk & e & Hfails & ->)]]].
    + left. split; [reflexivity|]. split; [exact Hrequests|].
      now exists messages_k.
    + destruct (Hservice messages_k (world r_k)) as (w1' & response' & Hcreate' & Huses').
      congruence.
    + destruct (Hservice messages_k (world r_k)) as (w1' & response' & Hcreate' & _).
      congruence.
    + right. exists k, messages_k, r_k, e. repeat split; auto.
      destruct Hfails as (w1 & w2 & w3 & response & done & toolUse & rest & results
                          & logs & _ & _ & _ & _ & ->).
      simpl. lia.
Qed.

(** C3.  In a turn whose response holds at least one tool call the body
    of the loop does not return: it ends the turn with the conversation
    extended, or with a tool failure thrown, and the text blocks of the
    response are in neither the result of the run nor a tool log entry.
    What the run returns after such a turn is what the turns that follow
    return: the fixed message, or the text of a later response that holds
    no tool call. *)
Theorem text_beside_tool_calls_is_dropped
  (remaining : nat) (messages : list MessageParam) (r : Run World)
  (w1 : World) (response : list ContentBlock) :
  messages_create messages (world r) = (w1, HostOk response) ->
  toolUsesOf response <> [] ->
  (forall r' text, round messages r <> (r', Ok (Return text))) /\
  (forall r' text,
      for_rounds (S remaining) messages r = (r', Ok text) ->
      exists r1 toolResults,
        round messages r
        = (r1, Ok (NextRound
                     (messages
                      ++ [{| role := assistant; message_content := Blocks response |};
                          {| role := user;
                             message_content := ToolResults toolResults |}])%list)) /\
        for_rounds remaining
          (messages
           ++ [{| role := assistant; message_content := Blocks response |};
               {| role := user; message_content := ToolResults toolResults |}])%list r1
        = (r', Ok text) /\
        ((text = LIMIT_REACHED /\ requests r' = requests r1 + remaining) \/
         (exists messages' w0 response',
             messages_create messages' w0 = (world r', HostOk response') /\
             toolUsesOf response' = [] /\
             text = join (textsOf response')))).
Proof.
  intros Hcreate Huses.
  assert (Hround : (exists r1 toolResults,
                       round messages r
                       = (r1, Ok (NextRound
                                    (messages
                                     ++ [{| role := assistant;
                                            message_content := Blocks response |};
                                         {| role := user;
                                            message_content :=
                                              ToolResults toolResults |}])%list)))
                   \/ (exists r1 e, round messages r = (r1, Throw e))).
  { rewrite round_cases, Hcreate. cbv zeta.
    destruct (toolUsesOf response) as [|toolUse rest]; [congruence|].
    destruct (for_toolUses (toolUse :: rest) [] _) as [r2 [toolResults|e]]; eauto. }
  split.
  - intros r' text Heq.
    destruct Hround as [(r1 & toolResults & Hr)|(r1 & e & Hr)];
      rewrite Hr in Heq; discriminate.
  - intros r' text. rewrite for_rounds_step.
    destruct Hround as [(r1 & toolResults & Hr)|(r1 & e & Hr)]; rewrite Hr;
      [|discriminate].
    intros Hrest. exists r1, toolResults. split; [reflexivity|].
    split; [exact Hrest|]. eapply for_rounds_returns; exact Hrest.
Qed.


(** C5.  When the first response holds no tool call, [runWithTools]
    returns in the first turn: one request was sent, no tool was
    dispatched (no log entry, and the world is as the completion service
    left it), and the result is the texts of the text blocks of the
    response, concatenated in their order. *)
Theorem answer_without_tool_calls
  (prompt : string) (w w1 : World) (response : list ContentBlock) :
  messages_create [{| role := user; message_content := Prompt prompt |}] w
  = (w1, HostOk response) ->
  toolUsesOf response = [] ->
  runWithTools prompt (start w)
  = ({| world := w1; toolLog := []; requests := 1 |},
     Ok (join (textsOf response))).
Proof.
  intros Hcreate Huses. unfold runWithTools, MAX_ROUNDS.
  rewrite for_rounds_step, round_cases. simpl world. rewrite Hcreate.
  cbv zeta. now rewrite Huses.
Qed.

End LoopTheorems.

(** ** The properties on the in-memory host *)

(** A service that answers with text only: one request, and the texts of
    the two text blocks joined. *)
Lemma answer_without_tool_calls_witness :
  runWithTools (H := Stub.host Stub.just_answers) "Say hello" (start Stub.project)
  = ({| world := Stub.project; toolLog := []; requests := 1 |}, Ok "Hello, world.").
Proof.
  exact (answer_without_tool_calls (H := Stub.host Stub.just_answers)
           "Say hello" Stub.project eq_refl eq_refl).
Defined.



(** A write into a directory that is not there yet: the directory is
    made, and the file reads as written. *)
Lemma readFile_after_writeFile_witness :
  fs_readdir (Host := Stub.host Stub.just_answers) "out" Stub.project
  = HostFail "ENOENT: no such file or directory, scandir out" /\
  writeFile (H := Stub.host Stub.just_answers) "out/a.txt" "hello" Stub.project
  = (Stub.project_with_output, Ok tt) /\
  fs_readdir (Host := Stub.host Stub.just_answers) "out" Stub.project_with_output
  = HostOk [FileEntry "a.txt"] /\
  readFile (H := Stub.host Stub.just_answers) "out/a.txt" Stub.project_with_output
  = (Stub.project_with_output, Ok "hello").
Proof.
  split; [reflexivity|]. split; [reflexivity|]. split; [reflexivity|].
  exact (proj1 (readFile_after_writeFile (H := Stub.host Stub.just_answers)
                  (L := stub_laws Stub.just_answers)
                  "out/a.txt" "hello" Stub.project eq_refl)).
Defined.

(** Without the [mkdir] of [writeFile] the write fails for want of the
    directory; and a file that is there is written over. *)
Example fs_writeFile_needs_directory :
  fs_writeFile (Host := Stub.host Stub.just_answers) "out/a.txt" "hello" Stub.project
  = (Stub.project, HostFail "ENOENT: no such file or directory, open out/a.txt").
Proof. reflexivity. Qed.

Example writeFile_overwrites :
  writeFile (H := Stub.host Stub.just_answers) "./notes.txt" "new" Stub.project
  = (Stub.project_with_notes "new", Ok tt) /\
  readFile (H := Stub.host Stub.just_answers) "notes.txt" (Stub.project_with_notes "new")
  = (Stub.project_with_notes "new", Ok "new").
Proof. split; reflexivity. Qed.

(** ** Text and bytes on the disk in memory *)

(** A well-formed string with a surrogate pair: its bytes in the file,
    and the string read back as it was written. *)
Lemma read_after_write_in_utf8_witness :
  Forall Utf8.is_unit MemDisk.well_formed_text /\
  Utf8.isWellFormed MemDisk.well_formed_text = true /\
  Encoded.writeFile (D := MemDisk.disk) (MemDisk.units "out/a.txt")
    MemDisk.well_formed_text []
  = ([(MemDisk.units "out/a.txt",
       [0x68; 0xC3; 0xA9; 0xE2; 0x82; 0xAC; 0xF0; 0x9F; 0x98; 0x80]%Z)], Ok tt) /\
  Encoded.readFile (D := MemDisk.disk) (MemDisk.units "out/a.txt")
    [(MemDisk.units "out/a.txt",
      [0x68; 0xC3; 0xA9; 0xE2; 0x82; 0xAC; 0xF0; 0x9F; 0x98; 0x80]%Z)]
  = ([(MemDisk.units "out/a.txt",
       [0x68; 0xC3; 0xA9; 0xE2; 0x82; 0xAC; 0xF0; 0x9F; 0x98; 0x80]%Z)],
     Ok MemDisk.well_formed_text).
Proof.
  assert (Hunits : Forall Utf8.is_unit MemDisk.well_formed_text)
    by (repeat constructor; discriminate).
  split; [exact Hunits|]. split; [reflexivity|]. split; [reflexivity|].
  exact (proj1 (@read_after_write_in_utf8 MemDisk.World MemDisk.disk memdisk_laws
                  (MemDisk.units "out/a.txt") MemDisk.well_formed_text [] _
                  Hunits eq_refl)).
Defined.

(** A string with a surrogate that has no partner: the bytes of U+FFFD
    are written in its place, and what is read is another string. *)
Lemma lone_surrogate_is_not_read_back :
  Forall Utf8.is_unit MemDisk.with_lone_surrogate /\
  Encoded.writeFile (D := MemDisk.disk) (MemDisk.units "a.txt")
    MemDisk.with_lone_surrogate []
  = ([(MemDisk.units "a.txt", [0x61; 0xEF; 0xBF; 0xBD; 0x62]%Z)], Ok tt) /\
  Encoded.readFile (D := MemDisk.disk) (MemDisk.units "a.txt")
    [(MemDisk.units "a.txt", [0x61; 0xEF; 0xBF; 0xBD; 0x62]%Z)]
  = ([(MemDisk.units "a.txt", [0x61; 0xEF; 0xBF; 0xBD; 0x62]%Z)],
     Ok MemDisk.with_replacement) /\
  MemDisk.with_replacement <> MemDisk.with_lone_surrogate /\
  ~ (forall (World : Type) (D : Disk World),
        DiskLaws World ->
        forall (filePath content : Utf8.js_string) (w w' : World),
          Forall Utf8.is_unit content ->
          Encoded.writeFile filePath content w = (w', Ok tt) ->
          Encoded.readFile filePath w' = (w', Ok content)).
Proof.
  assert (Hunits : Forall Utf8.is_unit MemDisk.with_lone_surrogate)
    by (repeat constructor; discriminate).
  split; [exact Hunits|]. split; [reflexivity|]. split; [reflexivity|].
  split; [discriminate|].
  intros Hclaim.
  specialize (Hclaim MemDisk.World MemDisk.disk memdisk_laws
                (MemDisk.units "a.txt") MemDisk.with_lone_surrogate [] _
                Hunits eq_refl).
  discriminate Hclaim.
Qed.

(** A turn with three calls of which the second throws: the first is in
    the log, the third never runs, and the run ends with the failure. *)
Lemma tool_failure_ends_the_run_witness :
  runWithTools (H := Stub.host Stub.lists_then_edits) "Rename qux" (start Stub.project)
  = ({| world := Stub.project;
        toolLog := [{| log_name := "listDir"; log_input := JObject [];
                       log_output := Stub.stringify
                                       (JArray [JString "notes.txt";
                                                JString "locked.bin";
                                                JString "docs/"]) |}];
        requests := 1 |},
     Throw (JsError "oldText not found")).
Proof.
  refine (proj1 (tool_failure_ends_the_run (H := Stub.host Stub.lists_then_edits)
                   5 [{| role := user; message_content := Prompt "Rename qux" |}]
                   (start Stub.project) (w1 := Stub.project) (w2 := Stub.project)
                   (w3 := Stub.project)
                   (done := [{| id := "toolu_1"; name := "listDir";
                                input := JObject [] |}])
                   [{| id := "toolu_3"; name := "readFile";
                       input := JObject [("filePath", JString "notes.txt")] |}]
                   {| id := "toolu_2"; name := "editFile";
                      input := JObject [("filePath", JString "notes.txt");
                                        ("oldText", JString "qux");
                                        ("newText", JString "quux")] |}
                   eq_refl eq_refl _ eq_refl)).
  exact (@Sequential_cons Stub.World (Stub.host Stub.lists_then_edits)
           {| id := "toolu_1"; name := "listDir"; input := JObject [] |} []
           Stub.project Stub.project Stub.project
           (JArray [JString "notes.txt"; JString "locked.bin"; JString "docs/"])
           [] [] eq_refl (Sequential_nil Stub.project)).
Defined.

(** A service that asks for [listDir] in every response. *)
Lemma always_lists_requests_tool :
  always_requests_tool Stub.World (H := Stub.host Stub.always_lists).
Proof.
  intros messages w. exists w. eexists. split; [reflexivity | discriminate].
Qed.

(** With that service the run goes through six turns, sends six
    requests and returns the fixed message. *)
Lemma loop_stops_at_round_limit_witness :
  exists r' messages',
    runWithTools (H := Stub.host Stub.always_lists) "Look around" (start Stub.project)
    = (r', Ok LIMIT_REACHED) /\
    requests r' = MAX_ROUNDS /\
    Turns (H := Stub.host Stub.always_lists) MAX_ROUNDS
      [{| role := user; message_content := Prompt "Look around" |}]
      (start Stub.project) messages' r'.
Proof.
  destruct (loop_stops_at_round_limit (H := Stub.host Stub.always_lists)
              "Look around" (start Stub.project))
    as (r' & out & Hrun & Hbound & Hends).
  destruct (Hends always_lists_requests_tool)
    as [(-> & Hrequests & messages' & Hturns)
       |(k & messages_k & r_k & e & _ & _ & _ & -> & _)].
  - exists r', messages'. split; [exact Hrun|]. split; [exact Hrequests | exact Hturns].
  - exfalso. vm_compute in Hrun. discriminate Hrun.
Defined.

(** The same run, computed: six requests, six calls of [listDir]. *)
Example always_lists_reaches_the_limit :
  exists r',
    runWithTools (H := Stub.host Stub.always_lists) "Look around" (start Stub.project)
    = (r', Ok "Tool loop limit reached") /\
    requests r' = 6 /\ List.length (toolLog r') = 6 /\ world r' = Stub.project.
Proof. eexists. split; [vm_compute; reflexivity|]. repeat split. Qed.

(** A service that always asks for a tool that does not exist: the run
    ends in its first turn with [Error("Unknown tool: deleteFile")], not
    after six turns with the fixed message. *)
Lemma unknown_tool_ends_before_the_limit :
  always_requests_tool Stub.World (H := Stub.host Stub.calls_unknown) /\
  runWithTools (H := Stub.host Stub.calls_unknown) "Clean up" (start Stub.project)
  = ({| world := Stub.project; toolLog := []; requests := 1 |},
     Throw (JsError "Unknown tool: deleteFile")) /\
  ~ (forall (World : Type) (H : Host World),
        always_requests_tool World ->
        forall (prompt : string) (w : World),
        exists r', runWithTools prompt (start w) = (r', Ok LIMIT_REACHED) /\
                   requests r' = MAX_ROUNDS).
Proof.
  assert (Hservice : always_requests_tool Stub.World (H := Stub.host Stub.calls_unknown)).
  { intros messages w. exists w. eexists. split; [reflexivity | discriminate]. }
  split; [exact Hservice|]. split; [reflexivity|].
  intros Hclaim.
  destruct (Hclaim Stub.World (Stub.host Stub.calls_unknown) Hservice
              "Clean up" Stub.project) as (r' & Hrun & _).
  discriminate Hrun.
Qed.

(** [readFile] without [filePath]: [runTool] throws, the turn makes no
    tool result, and the run ends with [Error("Invalid filePath")] thrown
    to its caller; a turn with tool calls does not always go on to the
    next. *)
Lemma missing_filePath_escapes_the_loop :
  runTool (H := Stub.host Stub.reads_nothing)
    "readFile" (normalizeToolInput (JObject [])) Stub.project
  = (Stub.project, Throw (JsError "Invalid filePath")) /\
  round (H := Stub.host Stub.reads_nothing)
    [{| role := user; message_content := Prompt "Read the notes" |}]
    (start Stub.project)
  = ({| world := Stub.project; toolLog := []; requests := 1 |},
     Throw (JsError "Invalid filePath")) /\
  runWithTools (H := Stub.host Stub.reads_nothing) "Read the notes" (start Stub.project)
  = ({| world := Stub.project; toolLog := []; requests := 1 |},
     Throw (JsError "Invalid filePath")) /\
  ~ (forall (World : Type) (H : Host World) (messages : list MessageParam)
       (r : Run World) (w1 : World) (response : list ContentBlock),
        messages_create messages (world r) = (w1, HostOk response) ->
        toolUsesOf response <> [] ->
        exists r' toolResults,
          round messages r
          = (r', Ok (NextRound
                       (messages
                        ++ [{| role := assistant; message_content := Blocks response |};
                            {| role := user;
                               message_content := ToolResults toolResults |}])%list)) /\
          map tool_use_id toolResults = map id (toolUsesOf response)).
Proof.
  repeat split; try reflexivity.
  intros Hclaim.
  destruct (Hclaim Stub.World (Stub.host Stub.reads_nothing)
              [{| role := user; message_content := Prompt "Read the notes" |}]
              (start Stub.project) Stub.project
              [Stub.call "toolu_1" "readFile" []] eq_refl)
    as (r' & toolResults & Hround & _); [discriminate|].
  discriminate Hround.
Qed.

(** A first response with the text [On it.] and two tool calls: the turn
    does not return, and the run returns the text of the second response. *)
Lemma text_beside_tool_calls_is_dropped_witness :
  (forall r' text,
      round (H := Stub.host Stub.writes_then_answers)
        [{| role := user; message_content := Prompt "Write it" |}]
        (start Stub.project)
      <> (r', Ok (Return text))) /\
  runWithTools (H := Stub.host Stub.writes_then_answers) "Write it" (start Stub.project)
  = ({| world := Stub.project_with_output;
        toolLog := [{| log_name := "writeFile";
                       log_input := JObject [("filePath", JString "out/a.txt");
                                             ("content", JString "hello")];
                       log_output := "ok" |};
                    {| log_name := "readFile";
                       log_input := JObject [("filePath", JString "out/a.txt")];
                       log_output := "hello" |}];
        requests := 2 |}, Ok "Done.").
Proof.
  split; [|reflexivity].
  exact (proj1 (text_beside_tool_calls_is_dropped
                  (H := Stub.host Stub.writes_then_answers) 5
                  [{| role := user; message_content := Prompt "Write it" |}]
                  (start Stub.project) (w1 := Stub.project) eq_refl
                  ltac:(discriminate))).
Defined.





(** A [RegExp] object handed in with [lastIndex] past the match: the first
    line it is tested against is searched from there, and is missed. *)
Example advanced_regex_misses_first_line :
  searchInFiles (H := Stub.host Stub.just_answers)
    (inr {| matcher := Stub.literal_search "foo"; global := true; sticky := false;
            lastIndex := 3 |})
    (Some ".") Stub.project
  = (Stub.project, Ok [{| file := "notes.txt"; line := 3; text := "foofoo" |}]).
Proof. reflexivity. Qed.

(** A tool failure reaches [main], which prints its message. *)
Example missing_filePath_is_printed :
  snd (answer_line (H := Stub.host Stub.reads_nothing) "Read the notes" Stub.project)
  = Stderr ("Invalid filePath" ++ String LF EmptyString).
Proof. reflexivity. Qed.

(** * More properties *)

(** ** walk and searchInFiles *)

Section WalkProperties.

Context {World : Type} {H : Host World}.

Import WalkSpec SearchSpec.

Lemma files_of_directory (dirPath name : string) (entries : list Dirent) :
  files_of_entry dirPath (DirEntry name (HostOk entries))
  = files_under (path_join dirPath name) entries.
Proof.
  simpl. generalize (path_join dirPath name) as fullPath. intros fullPath.
  induction entries as [|entry rest IH]; simpl; [reflexivity | now rewrite IH].
Qed.

Lemma failure_of_directory (name : string) (entries : list Dirent) :
  failure_of_entry (DirEntry name (HostOk entries)) = first_failure entries.
Proof.
  simpl. induction entries as [|entry rest IH]; simpl; [reflexivity | now rewrite IH].
Qed.

Lemma walk_entry_spec :
  forall (entry : Dirent) (dirPath : string) (results : list string),
    walk_entry dirPath entry results
    = match failure_of_entry entry with
      | Some message => Throw (HostError message)
      | None => Ok (results ++ files_of_entry dirPath entry)%list
      end.
Proof.
  fix IH 1. intros [name|name [entries|message]] dirPath results.
  - reflexivity.
  - rewrite walk_entry_directory, failure_of_directory, files_of_directory.
    generalize (path_join dirPath name) as fullPath. intros fullPath.
    revert results. induction entries as [|entry rest IHrest]; intros results; simpl.
    + now rewrite app_nil_r.
    + rewrite (IH entry). destruct (failure_of_entry entry); [reflexivity|].
      rewrite IHrest. destruct (first_failure rest); [reflexivity|].
      now rewrite app_assoc.
  - reflexivity.
Qed.

Lemma walk_entries_spec (dirPath : string) (entries : list Dirent)
  (results : list string) :
  walk_entries dirPath entries results
  = match first_failure entries with
    | Some message => Throw (HostError message)
    | None => Ok (results ++ files_under dirPath entries)%list
    end.
Proof.
  revert results. induction entries as [|entry rest IH]; intros results; simpl.
  - now rewrite app_nil_r.
  - rewrite walk_entry_spec. destruct (failure_of_entry entry); [reflexivity|].
    rewrite IH. destruct (first_failure rest); [reflexivity|].
    now rewrite app_assoc.
Qed.

(** X1.  [walk] adds to [results], after what is there, the files under
    the directory and nothing else: every entry that is not a directory,
    in the order of the listings, with the path joined from the directory
    names; directories themselves are not listed.  When the directory, or
    any directory under it, cannot be listed, [walk] throws that failure
    and gives no files at all. *)
Theorem walk_lists_files_in_order (dirPath : string) (results : list string)
  (w : World) :
  walk dirPath results w
  = (w, match fs_readdir dirPath w with
        | HostFail message => Throw (HostError message)
        | HostOk entries =>
            match first_failure entries with
            | Some message => Throw (HostError message)
            | None => Ok (results ++ files_under dirPath entries)%list
            end
        end).
Proof.
  unfold walk, bind, await_read.
  destruct (fs_readdir dirPath w) as [entries|message]; [|reflexivity].
  now rewrite walk_entries_spec.
Qed.

(** X2.  One directory under the root of the search that cannot be listed
    makes the whole search throw that failure, whatever the files before it
    hold: no partial result is returned. *)
Theorem unlistable_directory_fails_search
  (pattern : string + RegExp) (dirPath : string) (entries : list Dirent)
  (message : string) (w : World) :
  match pattern with
  | inl source => exists m, RegExp_compile source = HostOk m
  | inr _ => True
  end ->
  fs_readdir dirPath w = HostOk entries ->
  first_failure entries = Some message ->
  searchInFiles pattern (Some dirPath) w = (w, Throw (HostError message)).
Proof.
  intros Hpattern Hdir Hfail.
  assert (Hwalk : walk dirPath [] w = (w, Throw (HostError message))).
  { unfold walk, bind, await_read. rewrite Hdir, walk_entries_spec. now rewrite Hfail. }
  unfold searchInFiles, bind, call, await_read, ret.
  destruct pattern as [source|regex].
  - destruct Hpattern as [m Hm]. now rewrite Hm, Hwalk.
  - now rewrite Hwalk.
Qed.

(** X3.  A file that cannot be read does not fail the search and does not
    disturb it: the result is the one of the search without that file. *)
Theorem unreadable_file_is_skipped
  (source : string) (m : string -> nat -> option nat) (dirPath : option string)
  (before after : list string) (skipped message : string) (w : World) :
  RegExp_compile source = HostOk m ->
  walk (match dirPath with Some d => d | None => "." end) [] w
  = (w, Ok (before ++ skipped :: after)%list) ->
  fs_readFile skipped w = HostFail message ->
  searchInFiles (inl source) dirPath w
  = (w, Ok (expected m (before ++ after) w)).
Proof.
  intros Hcompile Hwalk Hread.
  unfold searchInFiles, bind, call, await_read, ret. rewrite Hcompile, Hwalk.
  rewrite for_files_expected by reflexivity. simpl. do 2 f_equal.
  unfold expected. rewrite !flat_map_app. simpl.
  unfold matches_in_file at 2. now rewrite Hread.
Qed.

(** The entries for one file: all for that file, with line numbers that
    grow, each within the lines of the file. *)
Lemma matching_lines_sorted (m : string -> nat -> option nat) (file0 : string)
  (lines : list string) (index : nat) :
  StronglySorted lt (map line (matching_lines m file0 lines index)) /\
  Forall (fun found => file found = file0 /\
                       index < line found <= index + List.length lines /\
                       In (text found) lines)
         (matching_lines m file0 lines index).
Proof.
  revert index. induction lines as [|l rest IH]; intros index; simpl.
  - split; constructor.
  - destruct (IH (S index)) as [Hsorted Hall].
    assert (Hall' : Forall (fun found => file found = file0 /\
                              index < line found <= index + S (List.length rest) /\
                              (l = text found \/ In (text found) rest))
                      (matching_lines m file0 rest (S index))).
    { eapply Forall_impl; [|exact Hall]. simpl. intros found (Hf & Hl & Hin).
      repeat split; auto; lia. }
    destruct (matches_line m l); simpl; [|now split].
    split.
    + constructor; [exact Hsorted|]. rewrite Forall_map.
      eapply Forall_impl; [|exact Hall]. simpl. intros found (_ & Hl & _). lia.
    + constructor; [|exact Hall']. simpl. repeat split; auto; lia.
Qed.

(** X4.  The result of a search comes file by file, in the order in which
    [walk] lists the files; within a file the line numbers grow strictly,
    start at 1 and do not pass the number of lines of the file, and the
    text of an entry holds no line feed. *)
Theorem search_results_are_ordered
  (source : string) (m : string -> nat -> option nat) (dirPath : option string)
  (files : list string) (w : World) :
  RegExp_compile source = HostOk m ->
  walk (match dirPath with Some d => d | None => "." end) [] w = (w, Ok files) ->
  exists groups : list (list SearchMatch),
    searchInFiles (inl source) dirPath w = (w, Ok (concat groups)) /\
    Forall2 (fun file0 group =>
               StronglySorted lt (map line group) /\
               Forall (fun found =>
                         file found = file0 /\
                         ~ occurs (String LF EmptyString) (text found) /\
                         exists content,
                           fs_readFile file0 w = HostOk content /\
                           1 <= line found <= List.length (split LF content))
                      group)
            files groups.
Proof.
  intros Hcompile Hwalk. exists (map (matches_in_file m w) files). split.
  - unfold searchInFiles, bind, call, await_read, ret. rewrite Hcompile, Hwalk.
    rewrite for_files_expected by reflexivity. simpl.
    unfold expected. now rewrite flat_map_concat_map.
  - clear Hwalk. induction files as [|file0 rest IH]; simpl; constructor; [|exact IH].
    unfold matches_in_file.
    destruct (fs_readFile file0 w) as [content|message] eqn:Hread.
    + destruct (matching_lines_sorted m file0 (split LF content) 0) as [Hsorted Hall].
      split; [exact Hsorted|]. eapply Forall_impl; [|exact Hall]. simpl.
      intros found (Hfile & Hline & Hin). repeat split; auto.
      * now apply split_pieces with (s := content).
      * exists content. split; [reflexivity | lia].
    + split; constructor.
Qed.

(** X20.  [searchInFiles] with a string pattern, in closed form.  It
    fails in three cases, tried in this order, and then returns nothing: the
    pattern is no regular expression (the directory is not looked at); the
    directory cannot be listed; a directory under it cannot be listed.
    Otherwise it succeeds, whatever the files are, with the matching lines
    of the files under the directory. *)
Theorem searchInFiles_in_closed_form
  (source : string) (dirPath : option string) (w : World) :
  searchInFiles (inl source) dirPath w
  = (w, match RegExp_compile source with
        | HostFail message => Throw (HostError message)
        | HostOk m =>
            match fs_readdir (match dirPath with Some d => d | None => "." end) w with
            | HostFail message => Throw (HostError message)
            | HostOk entries =>
                match first_failure entries with
                | Some message => Throw (HostError message)
                | None =>
                    Ok (expected m
                          (files_under
                             (match dirPath with Some d => d | None => "." end)
                             entries) w)
                end
            end
        end).
Proof.
  unfold searchInFiles, walk, call. unfold bind, await_read, ret.
  destruct (RegExp_compile source) as [m|message]; [|reflexivity].
  destruct (fs_readdir _ w) as [entries|message]; [|reflexivity].
  rewrite walk_entries_spec.
  destruct (first_failure entries) as [message|]; [reflexivity|].
  simpl. now rewrite for_files_expected.
Qed.

(** X5.  For a [RegExp] object that is neither global nor sticky, or whose
    [lastIndex] is 0, the search returns the matching lines of every file,
    as for a string pattern: its [lastIndex] plays no part. *)
Theorem search_with_plain_regex
  (regex : RegExp) (dirPath : option string) (files : list string) (w : World) :
  lastIndex regex = 0 \/ (global regex = false /\ sticky regex = false) ->
  walk (match dirPath with Some d => d | None => "." end) [] w = (w, Ok files) ->
  searchInFiles (inr regex) dirPath w
  = (w, Ok (expected (matcher regex) files w)).
Proof.
  intros Hplain Hwalk. unfold searchInFiles, bind, ret. rewrite Hwalk. do 2 f_equal.
  assert (Hgen : forall matches,
             snd (for_files files regex matches w)
             = (matches ++ expected (matcher regex) files w)%list).
  { clear Hwalk. induction files as [|file0 rest IH]; intros matches; simpl.
    - now rewrite app_nil_r.
    - unfold matches_in_file.
      destruct (fs_readFile file0 w) as [content|message]; [|apply IH].
      pose proof (split_not_empty LF content) as Hne.
      destruct (split LF content) as [|l lines]; [contradiction|].
      rewrite forEach_line_first, for_files_expected by reflexivity.
      rewrite (test_then_reset_plain regex l Hplain). simpl.
      destruct (matches_line (matcher regex) l); simpl; now rewrite <- !app_assoc. }
  now rewrite Hgen.
Qed.

(** X6.  A [RegExp] object that comes with a position of its own is tested
    from that position against the first line of the first file that can
    be read, and from 0 against every line after it: the result is the
    entry of that line, if that test succeeds, followed by the matching
    lines of the rest of the file and of the files after it. *)
Theorem stale_lastIndex_reaches_first_line_only
  (regex : RegExp) (dirPath : option string)
  (unreadable rest : list string) (file0 content l : string)
  (lines : list string) (w : World) :
  walk (match dirPath with Some d => d | None => "." end) [] w
  = (w, Ok (unreadable ++ file0 :: rest)%list) ->
  Forall (fun f => exists message, fs_readFile f w = HostFail message) unreadable ->
  fs_readFile file0 w = HostOk content ->
  split LF content = l :: lines ->
  searchInFiles (inr regex) dirPath w
  = (w, Ok ((if fst (test regex l)
             then [{| file := file0; line := 1; text := l |}] else [])
            ++ matching_lines (matcher regex) file0 lines 1
            ++ expected (matcher regex) rest w)%list).
Proof.
  intros Hwalk Hskip Hread Hsplit.
  unfold searchInFiles, bind, ret. rewrite Hwalk. do 2 f_equal.
  clear Hwalk. induction Hskip as [|f fs [message Hf] _ IH]; simpl.
  - rewrite Hread, Hsplit, forEach_line_first.
    rewrite for_files_expected by reflexivity. simpl.
    now rewrite <- app_assoc.
  - now rewrite Hf.
Qed.

End WalkProperties.

(** The search of a listing with a directory that may not be listed. *)
Lemma unlistable_directory_fails_search_witness :
  searchInFiles
    (H := Stub.host_listing Stub.listing_with_private Stub.just_answers)
    (inl "foo") (Some ".") Stub.project
  = (Stub.project,
     Throw (HostError "EACCES: permission denied, scandir private")).
Proof.
  apply (@unlistable_directory_fails_search Stub.World
           (Stub.host_listing Stub.listing_with_private Stub.just_answers)
           (inl "foo") "." Stub.listing_with_private).
  - eexists. reflexivity.
  - reflexivity.
  - reflexivity.
Defined.

(** The search of [project] is the search of its two files that can be
    read. *)
Lemma unreadable_file_is_skipped_witness :
  searchInFiles (H := Stub.host Stub.just_answers) (inl "o") None Stub.project
  = (Stub.project,
     Ok [{| file := "notes.txt"; line := 1; text := "foo bar" |};
         {| file := "notes.txt"; line := 3; text := "foofoo" |};
         {| file := "docs/readme.md"; line := 1; text := "nothing" |};
         {| file := "docs/readme.md"; line := 2; text := "to see" |}]).
Proof.
  exact (@unreadable_file_is_skipped Stub.World (Stub.host Stub.just_answers)
           "o" (Stub.literal_search "o") None ["notes.txt"] ["docs/readme.md"]
           "locked.bin" "EACCES: permission denied, open locked.bin"
           Stub.project eq_refl eq_refl eq_refl).
Defined.

(** The search of [project]: two groups with growing line numbers. *)
Lemma search_results_are_ordered_witness :
  exists groups : list (list SearchMatch),
    searchInFiles (H := Stub.host Stub.just_answers) (inl "o") None Stub.project
    = (Stub.project, Ok (concat groups)) /\
    List.length groups = 3.
Proof.
  destruct (@search_results_are_ordered Stub.World (Stub.host Stub.just_answers)
              "o" (Stub.literal_search "o") None
              ["notes.txt"; "locked.bin"; "docs/readme.md"] Stub.project
              eq_refl eq_refl) as (groups & Hsearch & Hgroups).
  exists groups. split; [exact Hsearch|].
  apply Forall2_length in Hgroups. now rewrite <- Hgroups.
Defined.

(** An expression without the [g] flag, handed in at position 3. *)
Lemma search_with_plain_regex_witness :
  searchInFiles (H := Stub.host Stub.just_answers)
    (inr {| matcher := Stub.literal_search "foo"; global := false; sticky := false;
            lastIndex := 3 |})
    (Some ".") Stub.project
  = (Stub.project,
     Ok [{| file := "notes.txt"; line := 1; text := "foo bar" |};
         {| file := "notes.txt"; line := 3; text := "foofoo" |}]).
Proof.
  exact (@search_with_plain_regex Stub.World (Stub.host Stub.just_answers)
           {| matcher := Stub.literal_search "foo"; global := false;
              sticky := false; lastIndex := 3 |}
           (Some ".") ["notes.txt"; "locked.bin"; "docs/readme.md"] Stub.project
           (or_intror (conj eq_refl eq_refl)) eq_refl).
Defined.

(** The same expression with the [g] flag: line 1 is searched from
    position 3 and missed, line 3 is found. *)
Lemma stale_lastIndex_reaches_first_line_only_witness :
  searchInFiles (H := Stub.host Stub.just_answers)
    (inr {| matcher := Stub.literal_search "foo"; global := true; sticky := false;
            lastIndex := 3 |})
    (Some ".") Stub.project
  = (Stub.project, Ok [{| file := "notes.txt"; line := 3; text := "foofoo" |}]).
Proof.
  exact (@stale_lastIndex_reaches_first_line_only Stub.World
           (Stub.host Stub.just_answers)
           {| matcher := Stub.literal_search "foo"; global := true;
              sticky := false; lastIndex := 3 |}
           (Some ".") [] ["locked.bin"; "docs/readme.md"] "notes.txt"
           (Stub.text_of_lines ["foo bar"; "baz"; "foofoo"]) "foo bar"
           ["baz"; "foofoo"] Stub.project eq_refl (Forall_nil _) eq_refl eq_refl).
Defined.

(** ** listDir *)

Section ListingProperties.

Context {World : Type} {H : Host World}.

Import ListingSpec.

Lemma ends_with_slash_append (s : string) : ends_with_slash (s ++ "/") = true.
Proof.
  induction s as [|c s IH]; [reflexivity|].
  simpl. destruct (s ++ "/") eqn:Hs; [destruct s; discriminate | exact IH].
Qed.

Lemma without_last_append (s : string) : without_last (s ++ "/") = s.
Proof.
  induction s as [|c s IH]; [reflexivity|].
  simpl. destruct (s ++ "/") eqn:Hs; [destruct s; discriminate|]. now rewrite IH.
Qed.

(** X7.  The listing of [listDir] has one name for each entry of the
    directory, in the order of [fs.readdir], and it can be read back: when
    no entry name ends with a slash, a listed name ends with a slash
    exactly for a directory, and the name before it is the entry name. *)
Theorem listDir_can_be_read_back
  (dirPath : option string) (entries : list Dirent) (w : World) :
  fs_readdir (match dirPath with Some d => d | None => "." end) w = HostOk entries ->
  Forall (fun entry => ends_with_slash (entry_name entry) = false) entries ->
  exists names,
    listDir dirPath w = (w, Ok names) /\
    map read_listed names
    = map (fun entry => (entry_name entry, isDirectory entry)) entries.
Proof.
  intros Hdir Hnames.
  exists (map (fun entry => if isDirectory entry then entry_name entry ++ "/"
                            else entry_name entry) entries).
  split.
  - unfold listDir, bind, await_read, ret. now rewrite Hdir.
  - clear Hdir. rewrite map_map.
    induction Hnames as [|entry rest Hentry _ IH]; simpl.
    + reflexivity.
    + rewrite IH. f_equal. unfold read_listed.
      destruct entry as [name|name sub]; simpl in *.
      * now rewrite Hentry.
      * now rewrite ends_with_slash_append, without_last_append.
Qed.

End ListingProperties.

(** The listing of [project]: two files and a directory. *)
Lemma listDir_can_be_read_back_witness :
  exists names,
    listDir (H := Stub.host Stub.just_answers) None Stub.project
    = (Stub.project, Ok names) /\
    map ListingSpec.read_listed names
    = [("notes.txt", false); ("locked.bin", false); ("docs", true)].
Proof.
  destruct (@listDir_can_be_read_back Stub.World (Stub.host Stub.just_answers)
              None
              [FileEntry "notes.txt"; FileEntry "locked.bin";
               DirEntry "docs" (HostOk [FileEntry "readme.md"])]
              Stub.project eq_refl)
    as (names & Hlist & Hread).
  - repeat constructor.
  - exists names. split; [exact Hlist | exact Hread].
Defined.

(** ** The dispatcher: what it throws and what it reads *)

Section DispatcherTheorems.

Context {World : Type} {H : Host World}.

Lemma bind_throw {S A B : Type} (m : Eff.t S A) (k : A -> Eff.t S B)
  (s s' : S) (e : exn) :
  bind m k s = (s', Throw e) ->
  m s = (s', Throw e) \/ exists a s1, m s = (s1, Ok a) /\ k a s1 = (s', Throw e).
Proof.
  unfold bind. destruct (m s) as [s1 [a|e1]]; intros Heq.
  - right. now exists a, s1.
  - left. now inversion Heq.
Qed.

Lemma bind_ok {S A B : Type} (m : Eff.t S A) (k : A -> Eff.t S B)
  (s s' : S) (b : B) :
  bind m k s = (s', Ok b) ->
  exists a s1, m s = (s1, Ok a) /\ k a s1 = (s', Ok b).
Proof.
  unfold bind. destruct (m s) as [s1 [a|e1]]; intros Heq; [|discriminate].
  now exists a, s1.
Qed.

Lemma requireString_ok (value : jsval) (name : string) (w w' : World) (s : string) :
  requireString value name w = (w', Ok s) -> value = JString s /\ w' = w.
Proof.
  destruct value; simpl; unfold ret, throw; intros Heq; inversion Heq; auto.
Qed.

Lemma requireString_throw (value : jsval) (name : string) (w w' : World) (e : exn) :
  requireString value name w = (w', Throw e) ->
  e = JsError ("Invalid " ++ name) /\ w' = w /\ forall s, value <> JString s.
Proof.
  destruct value; simpl; unfold ret, throw; intros Heq; inversion Heq;
    repeat split; discriminate.
Qed.

Lemma await_read_throws {S A : Type} (op : S -> host_result A) (s s' : S) (e : exn) :
  await_read op s = (s', Throw e) -> exists message, e = HostError message.
Proof.
  unfold await_read. destruct (op s) as [a|message]; intros Heq;
    inversion Heq; eauto.
Qed.

(** The tools throw what the host fails with; [editFile] also throws its
    own error. *)
Lemma writeFile_throws (filePath content : string) (w w' : World) (e : exn) :
  writeFile filePath content w = (w', Throw e) -> exists message, e = HostError message.
Proof.
  unfold writeFile. intros Heq.
  apply bind_throw in Heq as [Heq|(a & s1 & _ & Heq)];
    now apply await_throws_HostError in Heq.
Qed.

Lemma editFile_throws (filePath oldText newText : string) (w w' : World) (e : exn) :
  editFile filePath oldText newText w = (w', Throw e) ->
  (exists message, e = HostError message) \/ e = JsError "oldText not found".
Proof.
  unfold editFile. intros Heq.
  apply bind_throw in Heq as [Heq|(content & s1 & _ & Heq)].
  - left. now apply await_read_throws in Heq.
  - cbv zeta in Heq. destruct (indexOf content oldText =? -1)%Z.
    + right. unfold throw in Heq. now inversion Heq.
    + left. now apply await_throws_HostError in Heq.
Qed.

Lemma listDir_throws (dirPath : option string) (w w' : World) (e : exn) :
  listDir dirPath w = (w', Throw e) -> exists message, e = HostError message.
Proof.
  unfold listDir. intros Heq.
  apply bind_throw in Heq as [Heq|(a & s1 & _ & Heq)].
  - now apply await_read_throws in Heq.
  - discriminate.
Qed.

Lemma walk_throws (dirPath : string) (results : list string) (w w' : World) (e : exn) :
  walk dirPath results w = (w', Throw e) -> exists message, e = HostError message.
Proof.
  unfold walk. intros Heq.
  apply bind_throw in Heq as [Heq|(entries & s1 & _ & Heq)].
  - now apply await_read_throws in Heq.
  - rewrite walk_entries_spec in Heq.
    destruct (WalkSpec.first_failure entries); inversion Heq; eauto.
Qed.

Lemma searchInFiles_throws (pattern : string + RegExp) (dirPath : option string)
  (w w' : World) (e : exn) :
  searchInFiles pattern dirPath w = (w', Throw e) ->
  exists message, e = HostError message.
Proof.
  unfold searchInFiles. intros Heq.
  apply bind_throw in Heq as [Heq|(regex & s1 & _ & Heq)].
  - destruct pattern as [source|regex]; [|discriminate].
    apply bind_throw in Heq as [Heq|(m & s1 & _ & Heq)]; [|discriminate].
    unfold call in Heq. now apply await_read_throws in Heq.
  - apply bind_throw in Heq as [Heq|(files & s2 & _ & Heq)]; [|discriminate].
    now apply walk_throws in Heq.
Qed.

Lemma required_of_tool (tool : Tool) :
  In tool tools -> required_of (tool_name tool) = required tool.
Proof.
  simpl. intros Htool.
  repeat (destruct Htool as [<-|Htool]; [reflexivity|]). contradiction.
Qed.

(** Every failure that [runTool] throws is of one of four kinds. *)
Lemma runTool_throw_cases (name : string) (input : jsval) (w w' : World) (e : exn) :
  runTool name input w = (w', Throw e) ->
  (exists message, e = HostError message) \/
  (name = "editFile" /\ e = JsError "oldText not found") \/
  (exists field,
      In field (required_of name) /\ (forall s, get input field <> JString s) /\
      e = JsError ("Invalid " ++ field) /\ w' = w) \/
  (~ In name (map tool_name tools) /\ e = JsError ("Unknown tool: " ++ name) /\
   w' = w).
Proof.
  unfold runTool.
  assert (Hinvalid : forall field w0,
             In field (required_of name) ->
             requireString (get input field) field w = (w0, Throw e) ->
             exists field,
               In field (required_of name) /\
               (forall s, get input field <> JString s) /\
               e = JsError ("Invalid " ++ field) /\ w0 = w).
  { intros field w0 Hin Hreq. apply requireString_throw in Hreq as (-> & -> & Hnot).
    now exists field. }
  destruct (String.eqb_spec name "readFile") as [->|N1].
  { intros Heq. apply bind_throw in Heq as [Heq|(p & s1 & Hp & Heq)].
    - right; right; left. apply (Hinvalid "filePath"); [simpl; tauto | exact Heq].
    - apply bind_throw in Heq as [Heq|(c & s2 & _ & Heq)]; [|discriminate].
      left. now apply await_read_throws in Heq. }
  destruct (String.eqb_spec name "writeFile") as [->|N2].
  { intros Heq. apply bind_throw in Heq as [Heq|(p & s1 & Hp & Heq)].
    - right; right; left. apply (Hinvalid "filePath"); [simpl; tauto | exact Heq].
    - apply requireString_ok in Hp as [_ ->].
      apply bind_throw in Heq as [Heq|(c & s2 & Hc & Heq)].
      + right; right; left. apply (Hinvalid "content"); [simpl; tauto | exact Heq].
      + apply bind_throw in Heq as [Heq|(u & s3 & _ & Heq)]; [|discriminate].
        left. now apply writeFile_throws in Heq. }
  destruct (String.eqb_spec name "editFile") as [->|N3].
  { intros Heq. apply bind_throw in Heq as [Heq|(p & s1 & Hp & Heq)].
    - right; right; left. apply (Hinvalid "filePath"); [simpl; tauto | exact Heq].
    - apply requireString_ok in Hp as [_ ->].
      apply bind_throw in Heq as [Heq|(o & s2 & Ho & Heq)].
      + right; right; left. apply (Hinvalid "oldText"); [simpl; tauto | exact Heq].
      + apply requireString_ok in Ho as [_ ->].
        apply bind_throw in Heq as [Heq|(n & s3 & Hn & Heq)].
        * right; right; left.
          apply (Hinvalid "newText"); [simpl; tauto | exact Heq].
        * apply bind_throw in Heq as [Heq|(u & s4 & _ & Heq)]; [|discriminate].
          apply editFile_throws in Heq as [Heq| ->]; [now left | right; left; auto]. }
  destruct (String.eqb_spec name "listDir") as [->|N4].
  { intros Heq. apply bind_throw in Heq as [Heq|(names & s1 & _ & Heq)];
      [|discriminate].
    left. destruct (get input "dirPath"); now apply listDir_throws in Heq. }
  destruct (String.eqb_spec name "searchInFiles") as [->|N5].
  { intros Heq. apply bind_throw in Heq as [Heq|(p & s1 & Hp & Heq)].
    - right; right; left. apply (Hinvalid "pattern"); [simpl; tauto | exact Heq].
    - apply bind_throw in Heq as [Heq|(ms & s2 & _ & Heq)]; [|discriminate].
      left. destruct (get input "dirPath"); now apply searchInFiles_throws in Heq. }
  destruct (String.eqb_spec name "runCommand") as [->|N6].
  { intros Heq. apply bind_throw in Heq as [Heq|(c & s1 & Hc & Heq)].
    - right; right; left. apply (Hinvalid "command"); [simpl; tauto | exact Heq].
    - cbv zeta in Heq.
      apply bind_throw in Heq as [Heq|(out & s2 & _ & Heq)]; [|discriminate].
      left. unfold runCommand in Heq. now apply await_throws_HostError in Heq. }
  intros Heq. unfold throw in Heq. inversion Heq; subst.
  right; right; right. repeat split. simpl. intuition congruence.
Qed.

(** X8.  The dispatcher and the tool descriptors agree on the names:
    [runTool] throws [Error("Unknown tool: " + name)] exactly for the names
    that no descriptor has, whatever the arguments are; and when it throws
    that error the world is the one it was called in: nothing was read,
    written or run. *)
Theorem unknown_tool_exactly (name : string) (input : jsval) (w w' : World) :
  runTool name input w = (w', Throw (JsError ("Unknown tool: " ++ name)))
  <-> (~ In name (map tool_name tools) /\ w' = w).
Proof.
  split.
  - intros Heq.
    apply runTool_throw_cases in Heq
      as [[message Hm]|[[_ Hm]|[(field & _ & _ & Hm & _)|(Hnot & _ & Hw)]]];
      try discriminate. now split.
  - intros [Hnot ->]. now apply runTool_unknown.
Qed.

(** X9.  The dispatcher checks exactly what the descriptor of a tool
    requires, and only that the value is a string: [runTool] throws
    [Error("Invalid " + field)] exactly when an argument that the
    descriptor requires is not a string.  An empty string passes. *)
Theorem invalid_argument_exactly (tool : Tool) (input : jsval) (w : World) :
  In tool tools ->
  (exists w' field,
      runTool (tool_name tool) input w
      = (w', Throw (JsError ("Invalid " ++ field))))
  <-> (exists field,
          In field (required tool) /\ forall s, get input field <> JString s).
Proof.
  intros Htool. split.
  - intros (w' & field0 & Heq).
    apply runTool_throw_cases in Heq
      as [[message Hm]|[[_ Hm]|[(field & Hin & Hnot & _ & _)|(_ & Hm & _)]]];
      try discriminate.
    exists field. rewrite (required_of_tool Htool) in Hin. now split.
  - intros (field & Hin & Hnot).
    destruct (@runTool_validates_required _ _ tool field input w Htool Hin Hnot)
      as (missing & _ & Heq).
    now exists w, missing.
Qed.

(** Two argument bags that agree on the keys [runTool] reads. *)
Lemma runTool_reads (name : string) (a b : jsval) (w : World) :
  (forall key, In key tool_keys -> get a key = get b key) ->
  runTool name a w = runTool name b w.
Proof.
  intros Hkeys. unfold runTool.
  repeat match goal with
         | |- context [get a ?key] =>
             rewrite (Hkeys key) by (simpl; tauto)
         end.
  reflexivity.
Qed.

(** X10.  [runTool] reads the eight keys [filePath], [content], [oldText],
    [newText], [dirPath], [pattern], [command] and [options] of the
    argument bag and nothing else: two bags that agree on them give the
    same result, and fields of other names are ignored. *)
Theorem other_fields_are_ignored (name : string) (a b : jsval) (w : World) :
  (forall key, In key tool_keys -> get a key = get b key) ->
  runTool name a w = runTool name b w.
Proof. exact (runTool_reads name a b w). Qed.


(** X12.  An optional [dirPath] that is not a string is not rejected: it
    is dropped, and [listDir] and [searchInFiles] work on ["."]. *)
Theorem dirPath_that_is_no_string (input : jsval) (pattern : string) (w : World) :
  (forall s, get input "dirPath" <> JString s) ->
  runTool "listDir" input w = runTool "listDir" (JObject []) w /\
  (get input "pattern" = JString pattern ->
   runTool "searchInFiles" input w
   = runTool "searchInFiles" (JObject [("pattern", JString pattern)]) w).
Proof.
  intros Hnot. split.
  - unfold runTool. simpl. destruct (get input "dirPath"); try reflexivity.
    now destruct (Hnot s).
  - intros Hpattern. unfold runTool. simpl. rewrite Hpattern.
    destruct (get input "dirPath"); try reflexivity. now destruct (Hnot s).
Qed.

(** X13.  What reaches [exec] as options: the [options] of the call when
    it is an object or an array, the empty object in every other case (a
    string, a number, a boolean, [null], nothing).  A command that runs
    gives an object with its [stdout] and [stderr]. *)
Theorem runCommand_options (fields : list (string * jsval)) (command : string)
  (w : World) :
  lookup_field "command" fields = JString command ->
  runTool "runCommand" (JObject fields) w
  = match execAsync command
            (match lookup_field "options" fields with
             | JObject o => JObject o
             | JArray items => JArray items
             | _ => JObject []
             end) w with
    | (w', HostOk out) =>
        (w', Ok (JObject [("stdout", JString (fst out));
                          ("stderr", JString (snd out))]))
    | (w', HostFail message) => (w', Throw (HostError message))
    end.
Proof.
  intros Hcommand. unfold runTool. simpl. unfold bind, requireString.
  rewrite Hcommand. unfold ret, runCommand, await.
  destruct (lookup_field "options" fields); simpl;
    match goal with
    | |- context [execAsync command ?o w] =>
        now destruct (execAsync command o w) as [w' [out|message]]
    end.
Qed.

(** X14.  A [readFile] call that succeeds leaves the world as it is, and
    the content of its tool result is the content of the file as it is
    read, not a JSON rendering of it. *)
Theorem readFile_result_is_the_content (input : jsval) (w w' : World)
  (result : jsval) :
  runTool "readFile" input w = (w', Ok result) ->
  w' = w /\
  exists filePath,
    get input "filePath" = JString filePath /\
    fs_readFile filePath w = HostOk (toolContent result).
Proof.
  unfold runTool. simpl. intros Heq.
  apply bind_ok in Heq as (filePath & s1 & Hpath & Heq).
  apply requireString_ok in Hpath as [Hpath ->].
  apply bind_ok in Heq as (content & s2 & Hread & Heq).
  unfold ret in Heq. inversion Heq; subst; clear Heq.
  unfold readFile, await_read in Hread.
  destruct (fs_readFile filePath w) as [data|message] eqn:Hfile; inversion Hread; subst.
  split; [reflexivity|]. now exists filePath.
Qed.

End DispatcherTheorems.

(** ** The loop: its last turn and its failures *)

Section LoopExtras.

Context {World : Type} {H : Host World}.

(** X15.  The turn limit is checked after the tools have run: in the last
    turn the tool calls of the response are dispatched like in any other,
    their effects on the world stay and they are logged, but their results
    are sent to nobody, and the run returns the fixed message. *)
Theorem last_turn_still_runs_tools (messages : list MessageParam) (r : Run World)
  (w1 w2 : World) (response : list ContentBlock)
  (results : list ToolResultBlockParam) (logs : list ToolLogEntry) :
  messages_create messages (world r) = (w1, HostOk response) ->
  toolUsesOf response <> [] ->
  Sequential (toolUsesOf response) w1 w2 results logs ->
  for_rounds 1 messages r
  = ({| world := w2; toolLog := (toolLog r ++ logs)%list;
        requests := S (requests r) |}, Ok LIMIT_REACHED).
Proof.
  intros Hcreate Huses Hseq.
  now rewrite for_rounds_step, (round_goes_on _ _ Hcreate Huses Hseq).
Qed.

(** X16.  A run throws nothing of its own.  When [runWithTools] ends with
    a failure, the run has gone through fewer than six turns with tool
    calls that all ran to their end, and in the turn after them either a
    tool call that the response asks for threw the failure, after the
    calls before it in the response had run, or the request to the
    completion service failed; the run ends in the state that turn left.
    The failure is one of the host, or one of the three errors of the
    dispatcher: ["oldText not found"], ["Invalid "] and the name of an
    argument, ["Unknown tool: "] and the name asked for. *)
Theorem run_failures (prompt : string) (r r' : Run World) (e : exn) :
  runWithTools prompt r = (r', Throw e) ->
  (exists k messages_k r_k,
      k < MAX_ROUNDS /\
      Turns k [{| role := user; message_content := Prompt prompt |}] r
        messages_k r_k /\
      (ToolFails messages_k r_k r' e \/ ServiceFails messages_k r_k r' e)) /\
  ((exists message, e = HostError message) \/
   e = JsError "oldText not found" \/
   (exists field, In field tool_keys /\ e = JsError ("Invalid " ++ field)) \/
   (exists name,
       ~ In name (map tool_name tools) /\ e = JsError ("Unknown tool: " ++ name))).
Proof.
  intros Hrun. unfold runWithTools in Hrun.
  apply for_rounds_cases in Hrun as (k & messages_k & r_k & Hturns & Hend).
  destruct Hend as [(_ & _ & Hout)
                   |[(_ & w1 & response & _ & _ & _ & Hout)
                    |[(Hk & e' & Hfails & Hout)|(Hk & e' & Hfails & Hout)]]];
    try discriminate; injection Hout as <-.
  - split; [exists k, messages_k, r_k; auto|].
    destruct Hfails as (w1 & message & _ & -> & _). left. eauto.
  - split; [exists k, messages_k, r_k; auto|].
    destruct Hfails as (w1 & w2 & w3 & response & done & toolUse & rest & results
                        & logs & _ & _ & _ & Htool & _).
    apply runTool_throw_cases in Htool
      as [Hhost|[[_ ->]|[(field & Hin & _ & -> & _)|(Hnot & -> & _)]]].
    + now left.
    + right; left. reflexivity.
    + right; right; left. exists field. split; [|reflexivity].
      unfold required_of in Hin.
      destruct (find (fun tool => tool_name tool =? name toolUse) tools)
        as [tool|] eqn:Hfind; [|contradiction].
      apply find_some in Hfind as [Htool _]. simpl in Htool.
      repeat (destruct Htool as [<-|Htool];
              [simpl in Hin; simpl; tauto|]).
      contradiction.
    + right; right; right. now exists (name toolUse).
Qed.

End LoopExtras.

(** ** Tools one after the other *)

Section Composition.

Context {World : Type} {H : Host World} {L : FileSystemLaws World}.

(** X17.  A [writeFile] call and a [readFile] call of the same path in one
    response: when the write goes through, both run, the read after the
    write, and the two tool results are ["ok"] and the content that was
    just written, with the identifiers of the two calls. *)
Theorem write_then_read_in_one_turn
  (id1 id2 filePath content : string) (w w' : World) :
  writeFile filePath content w = (w', Ok tt) ->
  Sequential
    [{| id := id1; name := "writeFile";
        input := JObject [("filePath", JString filePath);
                          ("content", JString content)] |};
     {| id := id2; name := "readFile";
        input := JObject [("filePath", JString filePath)] |}]
    w w'
    [{| tool_use_id := id1; content := "ok" |};
     {| tool_use_id := id2; content := content |}]
    [{| log_name := "writeFile";
        log_input := JObject [("filePath", JString filePath);
                              ("content", JString content)];
        log_output := "ok" |};
     {| log_name := "readFile";
        log_input := JObject [("filePath", JString filePath)];
        log_output := content |}].
Proof.
  intros Hwrite.
  assert (Hread : readFile filePath w' = (w', Ok content)).
  { unfold writeFile in Hwrite.
    apply bind_ok in Hwrite as (u & w1 & _ & Hwrite). apply await_ok in Hwrite.
    unfold readFile, await_read. now rewrite (read_after_write _ _ _ Hwrite). }
  apply (@Sequential_cons World H
           {| id := id1; name := "writeFile";
              input := JObject [("filePath", JString filePath);
                                ("content", JString content)] |}
           _ w w' w' (JString "ok")).
  - unfold runTool. simpl. unfold bind, ret. simpl. now rewrite Hwrite.
  - apply (@Sequential_cons World H
             {| id := id2; name := "readFile";
                input := JObject [("filePath", JString filePath)] |}
             [] w' w' w' (JString content)).
    + unfold runTool. simpl. unfold bind, ret. simpl. now rewrite Hread.
    + constructor.
Qed.

(** X18.  An edit that puts a text in the place of itself changes
    nothing: it writes the content back as it was read. *)
Theorem edit_with_same_text (filePath sameText : string) (w : World)
  (content : string) :
  fs_readFile filePath w = HostOk content ->
  occurs sameText content ->
  editFile filePath sameText sameText w
  = await (fs_writeFile filePath content) w.
Proof.
  intros Hread Hocc. destruct (occurs_first Hocc) as (pre & post & Hfirst).
  rewrite (editFile_present filePath sameText w Hread Hfirst).
  destruct Hfirst as [-> _]. reflexivity.
Qed.


End Composition.

(** ** These properties on the in-memory host *)

(** [writeFile] with an empty [filePath] and no [content]: the empty
    string passes, the missing content does not. *)
Lemma invalid_argument_exactly_witness :
  exists w' field,
    runTool (H := Stub.host Stub.just_answers) "writeFile"
      (JObject [("filePath", JString EmptyString)]) Stub.project
    = (w', Throw (JsError ("Invalid " ++ field))).
Proof.
  apply (proj2 (@invalid_argument_exactly Stub.World (Stub.host Stub.just_answers)
                  {| tool_name := "writeFile";
                     description :=
                       "Write a text file, creating parent directories if needed.";
                     properties := ["filePath"; "content"];
                     required := ["filePath"; "content"] |}
                  (JObject [("filePath", JString EmptyString)]) Stub.project
                  (or_intror (or_introl eq_refl)))).
  exists "content". split; [simpl; tauto | intros s; discriminate].
Defined.

(** A [readFile] call with two fields that no tool knows. *)
Lemma other_fields_are_ignored_witness :
  runTool (H := Stub.host Stub.just_answers) "readFile"
    (JObject [("encoding", JString "latin1"); ("filePath", JString "notes.txt");
              ("lines", JNumber 2)])
    Stub.project
  = runTool (H := Stub.host Stub.just_answers) "readFile"
      (JObject [("filePath", JString "notes.txt")]) Stub.project.
Proof.
  apply (@other_fields_are_ignored Stub.World (Stub.host Stub.just_answers)).
  intros key Hkey. simpl in Hkey.
  repeat (destruct Hkey as [<-|Hkey]; [reflexivity|]). contradiction.
Defined.


(** A [listDir] call with a number as [dirPath]. *)
Lemma dirPath_that_is_no_string_witness :
  runTool (H := Stub.host Stub.just_answers) "listDir"
    (JObject [("dirPath", JNumber 42)]) Stub.project
  = (Stub.project,
     Ok (JArray [JString "notes.txt"; JString "locked.bin"; JString "docs/"])).
Proof.
  refine (eq_trans
            (proj1 (@dirPath_that_is_no_string Stub.World
                      (Stub.host Stub.just_answers)
                      (JObject [("dirPath", JNumber 42)]) "foo" Stub.project _))
            eq_refl).
  intros s. discriminate.
Defined.

(** A command with a string as [options], on the host without a shell. *)
Lemma runCommand_options_witness :
  runTool (H := Stub.host Stub.just_answers) "runCommand"
    (JObject [("command", JString "ls"); ("options", JString "fast")]) Stub.project
  = (Stub.project, Throw (HostError "Command failed: ls")).
Proof.
  exact (@runCommand_options Stub.World (Stub.host Stub.just_answers)
           [("command", JString "ls"); ("options", JString "fast")] "ls"
           Stub.project eq_refl).
Defined.

(** Reading the notes of [project]. *)
Lemma readFile_result_is_the_content_witness :
  Stub.project = Stub.project /\
  exists filePath,
    get (JObject [("filePath", JString "notes.txt")]) "filePath" = JString filePath /\
    fs_readFile (Host := Stub.host Stub.just_answers) filePath Stub.project
    = HostOk (Stub.text_of_lines ["foo bar"; "baz"; "foofoo"]).
Proof.
  exact (@readFile_result_is_the_content Stub.World (Stub.host Stub.just_answers)
           (JObject [("filePath", JString "notes.txt")]) Stub.project Stub.project
           (JString (Stub.text_of_lines ["foo bar"; "baz"; "foofoo"])) eq_refl).
Defined.

(** A run of one turn with the service that always lists. *)
Lemma last_turn_still_runs_tools_witness :
  for_rounds (H := Stub.host Stub.always_lists) 1
    [{| role := user; message_content := Prompt "Look around" |}]
    (start Stub.project)
  = ({| world := Stub.project;
        toolLog := [{| log_name := "listDir"; log_input := JObject [];
                       log_output := Stub.stringify
                                       (JArray [JString "notes.txt";
                                                JString "locked.bin";
                                                JString "docs/"]) |}];
        requests := 1 |}, Ok LIMIT_REACHED).
Proof.
  refine (@last_turn_still_runs_tools Stub.World (Stub.host Stub.always_lists)
            [{| role := user; message_content := Prompt "Look around" |}]
            (start Stub.project) Stub.project Stub.project
            [TextBlock "Looking around."; Stub.call "toolu_1" "listDir" []]
            _ _ eq_refl _ _).
  - discriminate.
  - exact (@Sequential_cons Stub.World (Stub.host Stub.always_lists)
             {| id := "toolu_1"; name := "listDir"; input := JObject [] |} []
             Stub.project Stub.project Stub.project
             (JArray [JString "notes.txt"; JString "locked.bin"; JString "docs/"])
             [] [] eq_refl (Sequential_nil Stub.project)).
Defined.

(** A run against a completion service that is down: no turn was gone
    through, and the first request failed. *)
Lemma run_failures_witness :
  runWithTools (H := Stub.host Stub.unavailable) "Hello" (start Stub.project)
  = ({| world := Stub.project; toolLog := []; requests := 1 |},
     Throw (HostError "503 Service Unavailable")) /\
  (exists k messages_k r_k,
      k < MAX_ROUNDS /\
      Turns (H := Stub.host Stub.unavailable) k
        [{| role := user; message_content := Prompt "Hello" |}] (start Stub.project)
        messages_k r_k /\
      (ToolFails (H := Stub.host Stub.unavailable) messages_k r_k
         {| world := Stub.project; toolLog := []; requests := 1 |}
         (HostError "503 Service Unavailable") \/
       ServiceFails (H := Stub.host Stub.unavailable) messages_k r_k
         {| world := Stub.project; toolLog := []; requests := 1 |}
         (HostError "503 Service Unavailable"))) /\
  ((exists message, HostError "503 Service Unavailable" = HostError message) \/
   HostError "503 Service Unavailable" = JsError "oldText not found" \/
   (exists field,
       In field tool_keys /\
       HostError "503 Service Unavailable" = JsError ("Invalid " ++ field)) \/
   (exists name,
       ~ In name (map tool_name tools) /\
       HostError "503 Service Unavailable" = JsError ("Unknown tool: " ++ name))).
Proof.
  split; [reflexivity|].
  exact (@run_failures Stub.World (Stub.host Stub.unavailable)
           "Hello" (start Stub.project)
           {| world := Stub.project; toolLog := []; requests := 1 |}
           (HostError "503 Service Unavailable") eq_refl).
Defined.

(** A run in which the second call of the first response throws: the
    failure of the run is the failure of that call. *)
Example run_failure_of_a_tool :
  runWithTools (H := Stub.host Stub.lists_then_edits) "Rename qux" (start Stub.project)
  = ({| world := Stub.project;
        toolLog := [{| log_name := "listDir"; log_input := JObject [];
                       log_output := Stub.stringify
                                       (JArray [JString "notes.txt";
                                                JString "locked.bin";
                                                JString "docs/"]) |}];
        requests := 1 |},
     Throw (JsError "oldText not found")) /\
  ToolFails (H := Stub.host Stub.lists_then_edits)
    [{| role := user; message_content := Prompt "Rename qux" |}] (start Stub.project)
    {| world := Stub.project;
       toolLog := [{| log_name := "listDir"; log_input := JObject [];
                      log_output := Stub.stringify
                                      (JArray [JString "notes.txt";
                                               JString "locked.bin";
                                               JString "docs/"]) |}];
       requests := 1 |}
    (JsError "oldText not found").
Proof.
  split; [reflexivity|].
  exists Stub.project, Stub.project, Stub.project.
  eexists. exists [{| id := "toolu_1"; name := "listDir"; input := JObject [] |}].
  eexists. eexists. eexists. eexists.
  split; [reflexivity|]. split; [reflexivity|]. split; [|split; reflexivity].
  exact (@Sequential_cons Stub.World (Stub.host Stub.lists_then_edits)
           {| id := "toolu_1"; name := "listDir"; input := JObject [] |} []
           Stub.project Stub.project Stub.project
           (JArray [JString "notes.txt"; JString "locked.bin"; JString "docs/"])
           [] [] eq_refl (Sequential_nil Stub.project)).
Qed.

(** Writing and reading ["out/a.txt"] in one response. *)
Lemma write_then_read_in_one_turn_witness :
  Sequential (H := Stub.host Stub.writes_then_answers)
    [{| id := "toolu_1"; name := "writeFile";
        input := JObject [("filePath", JString "out/a.txt");
                          ("content", JString "hello")] |};
     {| id := "toolu_2"; name := "readFile";
        input := JObject [("filePath", JString "out/a.txt")] |}]
    Stub.project Stub.project_with_output
    [{| tool_use_id := "toolu_1"; content := "ok" |};
     {| tool_use_id := "toolu_2"; content := "hello" |}]
    [{| log_name := "writeFile";
        log_input := JObject [("filePath", JString "out/a.txt");
                              ("content", JString "hello")];
        log_output := "ok" |};
     {| log_name := "readFile";
        log_input := JObject [("filePath", JString "out/a.txt")];
        log_output := "hello" |}].
Proof.
  exact (@write_then_read_in_one_turn Stub.World
           (Stub.host Stub.writes_then_answers)
           (stub_laws Stub.writes_then_answers)
           "toolu_1" "toolu_2" "out/a.txt" "hello"
           Stub.project Stub.project_with_output eq_refl).
Defined.

(** Putting [baz] in the place of [baz] leaves [project] as it is. *)
Lemma edit_with_same_text_witness :
  editFile (H := Stub.host Stub.just_answers) "notes.txt" "baz" "baz" Stub.project
  = (Stub.project, Ok tt).
Proof.
  refine (eq_trans
            (@edit_with_same_text Stub.World (Stub.host Stub.just_answers)
               "notes.txt" "baz" Stub.project
               (Stub.text_of_lines ["foo bar"; "baz"; "foofoo"]) eq_refl _)
            eq_refl).
  exists (Stub.text_of_lines ["foo bar"; EmptyString]),
         (Stub.text_of_lines [EmptyString; "foofoo"]).
  reflexivity.
Defined.

